(** * universal_searcher.py: the search engine of [UniversalFileSearcher]

    A shallow embedding of the content decoder, the pattern matcher, the
    file orchestrator and the directory walker of
    [src/universal_searcher.py], with the properties the specification
    states about them.

    Python strings are sequences of Unicode code points; the regular
    expression engine, the file system and the archive readers are the
    environment of the program and appear as records the functions are
    parametrised by. *)

From Equations Require Import Equations.
From Stdlib Require Import String Ascii.
From Stdlib Require Import List Arith NArith Lia Bool Sorted.
Import ListNotations.

Set Implicit Arguments.

(* ===================================================================== *)
(** ** Python strings *)
(* ===================================================================== *)

Module PyStr.

(** A [str] is a sequence of code points. *)
Definition char : Type := N.
Definition str : Type := list char.

(** A literal of the source, written as a Rocq string (ASCII only). *)
Definition lit (s : string) : str :=
  map N_of_ascii (list_ascii_of_string s).

Definition char_eqb (c d : char) : bool := N.eqb c d.

Fixpoint eqb (s t : str) : bool :=
  match s, t with
  | [], [] => true
  | c :: s', d :: t' => char_eqb c d && eqb s' t'
  | _, _ => false
  end.

(** [s[a:b]] for [0 <= a] and [0 <= b]; out-of-range bounds are clipped. *)
Definition slice (s : str) (a b : nat) : str := firstn (b - a) (skipn a s).

(** [s[a:]] *)
Definition slice_from (s : str) (a : nat) : str := skipn a s.

(** [x in l] for a list of strings. *)
Definition mem (x : str) (l : list str) : bool := existsb (eqb x) l.

(** [c in s] for a one-character string [c]. *)
Definition contains_char (c : char) (s : str) : bool := existsb (char_eqb c) s.

(** [str.lower] of one code point, on a part of Unicode only: the capital
    letters of Basic Latin (U+0041 to U+005A), of the Latin-1 Supplement
    (U+00C0 to U+00DE) and of Cyrillic from U+0400 to U+042F, and U+0130
    (capital I with dot above), the one code point whose lowercase is two
    code points, U+0069 U+0307.  Every other code point is left as it is,
    which the built-in does not do for the capital letters of other
    ranges (U+0490, U+212A, ...), nor for U+03A3, whose lowercase depends
    on its neighbours.  The concrete searches below stay within the
    modelled part; what is stated about case folding in general is stated
    for an arbitrary function in its place (section [AnyCaseFolding]). *)
Definition lower_char (c : char) : list char :=
  if (65 <=? c)%N && (c <=? 90)%N then [(c + 32)%N]
  else if (192 <=? c)%N && (c <=? 222)%N && negb (c =? 215)%N then [(c + 32)%N]
  else if (c =? 304)%N then [105%N; 775%N]
  else if (1024 <=? c)%N && (c <=? 1039)%N then [(c + 80)%N]
  else if (1040 <=? c)%N && (c <=? 1071)%N then [(c + 32)%N]
  else [c].

Definition lower (s : str) : str := flat_map lower_char s.

Fixpoint startswith (s sub : str) : bool :=
  match sub, s with
  | [], _ => true
  | c :: sub', d :: s' => char_eqb c d && startswith s' sub'
  | _ :: _, [] => false
  end.

Definition endswith (s suf : str) : bool := startswith (rev s) (rev suf).

(** The lowest index [i + k] such that [sub] occurs in [s] at offset [k]. *)
Fixpoint find_at (s sub : str) (i : nat) : option nat :=
  if startswith s sub then Some i
  else match s with
       | [] => None
       | _ :: s' => find_at s' sub (S i)
       end.

(** [s.find(sub, start)] for [start >= 0]; [None] stands for [-1].
    A start index past the end of [s] finds nothing, also for the empty
    [sub]. *)
Definition find (s sub : str) (start : nat) : option nat :=
  if length s <? start then None else find_at (skipn start s) sub start.

(** [s.rfind(c)] for a one-character string [c]; [None] stands for [-1]. *)
Fixpoint rfind_char (c : char) (s : str) : option nat :=
  match s with
  | [] => None
  | d :: s' =>
      match rfind_char c s' with
      | Some i => Some (S i)
      | None => if char_eqb d c then Some 0 else None
      end
  end.

(** [s.split(c)] for a one-character separator: never the empty list. *)
Fixpoint split (c : char) (s : str) : list str :=
  match s with
  | [] => [[]]
  | d :: s' =>
      if char_eqb d c then [] :: split c s'
      else match split c s' with
           | l :: ls => (d :: l) :: ls
           | [] => [[d]]
           end
  end.

Definition newline : char := 10%N.
Definition dot : char := 46%N.
Definition slash : char := 47%N.

End PyStr.

Import PyStr.

(* ===================================================================== *)
(** ** Exceptions *)
(* ===================================================================== *)

(** The exceptions the source distinguishes: [re.error], which
    [search_in_text] handles itself, and every other subclass of
    [Exception], which only [search_in_file] handles.  Both carry the
    text [str(e)]. *)
Inductive exn : Type :=
| re_error (msg : str)
| other_exception (msg : str).

Definition exn_str (e : exn) : str :=
  match e with
  | re_error msg => msg
  | other_exception msg => msg
  end.

(** The outcome of a call that may raise. *)
Inductive outcome (A : Type) : Type :=
| Ok (a : A)
| Raise (e : exn).

Arguments Ok {A} a.
Arguments Raise {A} e.

Definition bind {A B : Type} (m : outcome A) (k : A -> outcome B) : outcome B :=
  match m with
  | Ok a => k a
  | Raise e => Raise e
  end.

Notation "x <- m ;; k" := (bind m (fun x => k))
  (at level 61, m at next level, right associativity).

(* ===================================================================== *)
(** ** The regular expression engine (module [re]) *)
(* ===================================================================== *)

Inductive re_flags : Type := NOFLAG | IGNORECASE.

(** [re.compile] and [Pattern.finditer]: the matches of a line are the
    spans [(match.start(), match.end())] in the order the iterator yields
    them.  Either call may raise. *)
Record ReEngine : Type := {
  re_pattern : Type;
  re_compile : str -> re_flags -> outcome re_pattern;
  re_finditer : re_pattern -> str -> outcome (list (nat * nat))
}.

(* ===================================================================== *)
(** ** Pattern matcher *)
(* ===================================================================== *)

(** The dictionary [search_in_text] appends for one match. *)
Record MatchRecord : Type := {
  mr_line : nat;
  mr_position : nat;
  mr_match : str;
  mr_context : str;
  mr_full_line : str
}.

Definition ellipsis : str := lit "...".

(** [_get_context(line, start, end, context_chars=50)].  Offsets are
    natural numbers, so [start - context_chars] is already 0 where the
    integer difference of the source is negative. *)
Definition _get_context_chars (line : str) (start end_ context_chars : nat) : str :=
  let context_start := Nat.max 0 (start - context_chars) in
  let context_end := Nat.min (length line) (end_ + context_chars) in
  let context := slice line context_start context_end in
  let context := if 0 <? context_start then ellipsis ++ context else context in
  let context := if context_end <? length line then context ++ ellipsis else context in
  context.

Definition _get_context (line : str) (start end_ : nat) : str :=
  _get_context_chars line start end_ 50.

(** The record appended for a literal hit at [pos]. *)
Definition literal_record (i : nat) (line : str) (pattern_len pos : nat) : MatchRecord :=
  {| mr_line := i;
     mr_position := pos;
     mr_match := slice line pos (pos + pattern_len);
     mr_context := _get_context line pos (pos + pattern_len);
     mr_full_line := line |}.

(** A value together with the equation that names it: the loop below
    needs the result of [find] and the fact that [find] returned it. *)
Definition inspect {A : Type} (a : A) : {b : A | a = b} := exist _ a eq_refl.

(** The [while True] loop of the literal branch, entered with cursor
    [start] and the records collected so far.  It stops when [find]
    reports no occurrence; each hit moves the cursor to [pos + 1]. *)
Equations? literal_scan (i : nat) (line line_to_search pattern_to_use : str)
    (pattern_len start : nat) (results : list MatchRecord) : list MatchRecord
    by wf (S (length line_to_search) - start) lt :=
  literal_scan i line line_to_search pattern_to_use pattern_len start results
    with inspect (find line_to_search pattern_to_use start) => {
    | exist _ None _ := results;
    | exist _ (Some pos) Hfind :=
        literal_scan i line line_to_search pattern_to_use pattern_len (pos + 1)
                     (results ++ [literal_record i line pattern_len pos]) }.
Proof.
  assert (Hat : forall s k p, find_at s pattern_to_use k = Some p ->
                              k <= p <= k + length s).
  { induction s as [|c s IH]; intros k p; cbn [find_at length].
    - destruct (startswith [] pattern_to_use); intros [=]; lia.
    - destruct (startswith (c :: s) pattern_to_use); intros H.
      + injection H as <-. lia.
      + apply IH in H. lia. }
  unfold find in Hfind.
  destruct (length line_to_search <? start) eqn:Hlt; [discriminate|].
  apply Nat.ltb_ge in Hlt. apply Hat in Hfind.
  rewrite length_skipn in Hfind.
  rewrite Nat.add_1_r. destruct start; lia.
Qed.

(** One iteration of [for i, line in enumerate(lines, 1)] in the literal
    branch. *)
Definition literal_line (pattern : str) (case_sensitive : bool)
    (i : nat) (line : str) (results : list MatchRecord) : list MatchRecord :=
  let line_to_search := if case_sensitive then line else lower line in
  let pattern_to_use := if case_sensitive then pattern else lower pattern in
  let start := 0 in
  let pattern_len := length pattern in
  literal_scan i line line_to_search pattern_to_use pattern_len start results.

Fixpoint literal_lines (pattern : str) (case_sensitive : bool)
    (i : nat) (lines : list str) (results : list MatchRecord) : list MatchRecord :=
  match lines with
  | [] => results
  | line :: rest =>
      literal_lines pattern case_sensitive (S i) rest
                    (literal_line pattern case_sensitive i line results)
  end.

(** The record appended for a regex match with span [(s, e)]. *)
Definition regex_record (i : nat) (line : str) (span : nat * nat) : MatchRecord :=
  {| mr_line := i;
     mr_position := fst span;
     mr_match := slice line (fst span) (snd span);
     mr_context := _get_context line (fst span) (snd span);
     mr_full_line := line |}.

Section Matcher.

Variable re : ReEngine.

(** The [for] loop of the regex branch; an exception of [finditer] leaves
    the loop. *)
Fixpoint regex_lines (regex_pattern : re_pattern re) (i : nat) (lines : list str)
    (results : list MatchRecord) : outcome (list MatchRecord) :=
  match lines with
  | [] => Ok results
  | line :: rest =>
      matches <- re_finditer re regex_pattern line ;;
      regex_lines regex_pattern (S i) rest
                  (fold_left (fun acc m => acc ++ [regex_record i line m]) matches results)
  end.

(** [search_in_text(text, pattern, case_sensitive, regex)] *)
Definition search_in_text (text pattern : str) (case_sensitive regex : bool)
  : outcome (list MatchRecord) :=
  let results := [] in
  match text with
  | [] => Ok results
  | _ :: _ =>
      let lines := split newline text in
      if regex then
        let attempt :=
          let flags := if case_sensitive then NOFLAG else IGNORECASE in
          regex_pattern <- re_compile re pattern flags ;;
          regex_lines regex_pattern 1 lines results in
        match attempt with
        | Ok results => Ok results
        | Raise (re_error _) => Ok []
        | Raise e => Raise e
        end
      else
        Ok (literal_lines pattern case_sensitive 1 lines results)
  end.

End Matcher.

(** An engine for the examples: a pattern with an unclosed parenthesis
    does not compile, any other pattern matches itself (lower-cased under
    [IGNORECASE]) without overlap, and matching a line longer than [limit]
    code points raises [MemoryError], whose [str] is empty. *)
Definition unclosed (pattern : str) : bool :=
  length (filter (char_eqb 41%N) pattern) <? length (filter (char_eqb 40%N) pattern).

Fixpoint toy_spans (fuel : nat) (line pat : str) (start : nat) : list (nat * nat) :=
  match fuel with
  | 0 => []
  | S fuel' =>
      match find line pat start with
      | None => []
      | Some pos => (pos, pos + length pat) :: toy_spans fuel' line pat (pos + Nat.max 1 (length pat))
      end
  end.

Definition toy_engine (limit : nat) : ReEngine :=
  {| re_pattern := str * re_flags;
     re_compile := fun pattern flags =>
       if unclosed pattern
       then Raise (re_error (lit "missing ), unterminated subpattern at position 0"))
       else Ok (pattern, flags);
     re_finditer := fun rx line =>
       if limit <? length line then Raise (other_exception (lit ""))
       else match snd rx with
            | NOFLAG => Ok (toy_spans (S (length line)) line (fst rx) 0)
            | IGNORECASE =>
                Ok (toy_spans (S (length line)) (lower line) (lower (fst rx)) 0)
            end |}.

(** An engine that rejects patterns as [re] does for the examples: an
    unclosed parenthesis with [re.error], the repetition count of
    [overflow_pattern] with [OverflowError]; any other pattern matches
    itself (lower-cased under [IGNORECASE]) without overlap, and matching
    never raises. *)
Definition overflow_pattern : str := lit "a{99999999999}".

Definition sample_engine : ReEngine :=
  {| re_pattern := str * re_flags;
     re_compile := fun pattern flags =>
       if unclosed pattern
       then Raise (re_error (lit "missing ), unterminated subpattern at position 0"))
       else if eqb pattern overflow_pattern
       then Raise (other_exception (lit "the repetition number is too large"))
       else Ok (pattern, flags);
     re_finditer := fun rx line =>
       match snd rx with
       | NOFLAG => Ok (toy_spans (S (length line)) line (fst rx) 0)
       | IGNORECASE =>
           Ok (toy_spans (S (length line)) (lower line) (lower (fst rx)) 0)
       end |}.

(* ===================================================================== *)
(** ** The file system and the archive libraries *)
(* ===================================================================== *)

Inductive encoding : Type := utf_8 | cp1251 | latin_1.

(** What [open(file_path, 'r', encoding=enc)] followed by [f.read()]
    does: it returns the text, raises [UnicodeDecodeError], or raises
    another exception (a missing file, a directory, no permission). *)
Inductive read_outcome : Type :=
| ReadText (text : str)
| UnicodeDecodeError
| ReadFailure.

(** An entry of [ZipFile.infolist()] or [RarFile.infolist()].  [zi_text]
    is what opening the entry and decoding its bytes as UTF-8 with
    [errors='ignore'] yields; [None] when the entry cannot be opened or
    read. *)
Record ZipInfo : Type := {
  zi_filename : str;
  zi_is_dir : bool;
  zi_text : option str
}.

(** The member types of a tar archive; [TarInfo.isfile()] holds for
    regular files only, [TarInfo.isdir()] for directories only. *)
Inductive tar_type : Type :=
| REGTYPE | DIRTYPE | SYMTYPE | LNKTYPE | CHRTYPE | BLKTYPE | FIFOTYPE.

Definition isfile (t : tar_type) : bool :=
  match t with REGTYPE => true | _ => false end.

Definition isdir (t : tar_type) : bool :=
  match t with DIRTYPE => true | _ => false end.

(** A member of [TarFile.getmembers()].  [ti_text] is what
    [extractfile(member)] and the UTF-8 decoding of its bytes yield (for a
    link, the text of the member it points to); [None] when it raises.
    [extractfile] returns a reader for every regular member, so the test
    [if f:] of the source holds whenever it is reached. *)
Record TarInfo : Type := {
  ti_name : str;
  ti_type : tar_type;
  ti_text : option str
}.

Inductive tar_mode : Type := mode_r | mode_r_gz.

(** The environment of one run.  An archive constructor yields [None]
    when opening the archive or listing its members raises; [rglob] and
    [glob] list the paths [Path(directory).rglob(file_pattern)] and
    [Path(directory).glob(file_pattern)] yield, or raise (pathlib rejects
    some patterns); [is_file] is [Path.is_file()], which raises where the
    file system refuses the test (no permission on a parent, for one). *)
Record World : Type := {
  RAR_SUPPORT : bool;
  path_exists : str -> bool;
  open_read : str -> encoding -> read_outcome;
  ZipFile : str -> option (list ZipInfo);
  RarFile : str -> option (list ZipInfo);
  tarfile_open : str -> tar_mode -> option (list TarInfo);
  rglob : str -> str -> outcome (list str);
  glob : str -> str -> outcome (list str);
  is_file : str -> outcome bool
}.

(* ===================================================================== *)
(** ** Paths *)
(* ===================================================================== *)

(** [os.path.splitext(p)] (posixpath): the extension starts at the last
    dot of the last component, unless only dots precede it there. *)
Definition splitext (p : str) : str * str :=
  match rfind_char dot p with
  | None => (p, [])
  | Some dotIndex =>
      let filenameIndex :=
        match rfind_char slash p with None => 0 | Some sepIndex => S sepIndex end in
      if (filenameIndex <=? dotIndex)
         && existsb (fun c => negb (char_eqb c dot)) (slice p filenameIndex dotIndex)
      then (firstn dotIndex p, skipn dotIndex p)
      else (p, [])
  end.

(** [PurePath.name]: the last component. *)
Definition path_name (p : str) : str :=
  match rfind_char slash p with
  | None => p
  | Some i => skipn (S i) p
  end.

(** [PurePath.suffix]: the part of the name from its last dot on, when
    that dot is neither the first nor the last character of the name. *)
Definition path_suffix (p : str) : str :=
  let name := path_name p in
  match rfind_char dot name with
  | None => []
  | Some i => if (0 <? i) && (i <? length name - 1) then skipn i name else []
  end.

(* ===================================================================== *)
(** ** Content decoder *)
(* ===================================================================== *)

(** A [dict] from entry name to text: keys are unique and keep the order
    of their first insertion. *)
Definition dict : Type := list (str * str).

Fixpoint dict_set (k v : str) (d : dict) : dict :=
  match d with
  | [] => [(k, v)]
  | (k', v') :: d' => if eqb k' k then (k, v) :: d' else (k', v') :: dict_set k v d'
  end.

Definition keys (d : dict) : list str := map fst d.

(** What [read_file] returns: a [str] or a [dict]. *)
Inductive content : Type :=
| Text (text : str)
| Archive (entries : dict).

(** The handlers of the dispatch table. *)
Inductive reader : Type :=
| read_text_file | read_zip_file | read_tar_file | read_rar_file.

(** The list the three archive readers test an entry's extension against. *)
Definition archive_extensions : list str :=
  map lit ["txt"; "csv"; "json"; "xml"; "html"; "py"; "js"; "md"; "log"]%string.

(** The extension of an archive entry:
    [os.path.splitext(name)[1][1:].lower()] *)
Definition entry_ext (name : str) : str :=
  lower (slice_from (snd (splitext name)) 1).

(** The body of [for file_info in zip_ref.infolist()]. *)
Fixpoint zip_loop (infos : list ZipInfo) (content : dict) : dict :=
  match infos with
  | [] => content
  | file_info :: rest =>
      if negb (zi_is_dir file_info) then
        let ext := entry_ext (zi_filename file_info) in
        if mem ext archive_extensions then
          match zi_text file_info with
          | Some text => zip_loop rest (dict_set (zi_filename file_info) text content)
          | None => zip_loop rest content
          end
        else zip_loop rest content
      else zip_loop rest content
  end.

(** The body of [for member in tar_ref.getmembers()]. *)
Fixpoint tar_loop (members : list TarInfo) (content : dict) : dict :=
  match members with
  | [] => content
  | member :: rest =>
      if isfile (ti_type member) then
        let ext := entry_ext (ti_name member) in
        if mem ext archive_extensions then
          match ti_text member with
          | Some text => tar_loop rest (dict_set (ti_name member) text content)
          | None => tar_loop rest content
          end
        else tar_loop rest content
      else tar_loop rest content
  end.

Section Decoder.

Variable w : World.

(** [self.supported_extensions], built by [__init__]. *)
Definition supported_extensions : list (str * reader) :=
  [ (lit "txt", read_text_file); (lit "csv", read_text_file);
    (lit "json", read_text_file); (lit "xml", read_text_file);
    (lit "html", read_text_file); (lit "py", read_text_file);
    (lit "js", read_text_file); (lit "md", read_text_file);
    (lit "log", read_text_file); (lit "ini", read_text_file);
    (lit "cfg", read_text_file); (lit "zip", read_zip_file);
    (lit "tar", read_tar_file); (lit "gz", read_tar_file) ]
  ++ (if RAR_SUPPORT w then [(lit "rar", read_rar_file)] else []).

(** [ext in self.supported_extensions] *)
Definition supported (ext : str) : bool := mem ext (map fst supported_extensions).

(** [_read_text_file(file_path)] with the default [encoding='utf-8']. *)
Definition _read_text_file (file_path : str) : str :=
  match open_read w file_path utf_8 with
  | ReadText text => text
  | UnicodeDecodeError =>
      match open_read w file_path cp1251 with
      | ReadText text => text
      | _ =>
          match open_read w file_path latin_1 with
          | ReadText text => text
          | _ => []
          end
      end
  | ReadFailure => []
  end.

(** [_read_zip_file(file_path)] *)
Definition _read_zip_file (file_path : str) : dict :=
  let content := [] in
  match ZipFile w file_path with
  | Some infos => zip_loop infos content
  | None => content
  end.

(** [_read_rar_file(file_path)] *)
Definition _read_rar_file (file_path : str) : dict :=
  if negb (RAR_SUPPORT w) then []
  else
    let content := [] in
    match RarFile w file_path with
    | Some infos => zip_loop infos content
    | None => content
    end.

(** [_read_tar_file(file_path)] *)
Definition _read_tar_file (file_path : str) : dict :=
  let content := [] in
  let mode := if endswith file_path (lit ".gz") then mode_r_gz else mode_r in
  match tarfile_open w file_path mode with
  | Some members => tar_loop members content
  | None => content
  end.

(** [read_file(file_path)] *)
Definition read_file (file_path : str) : content :=
  if negb (path_exists w file_path) then Text []
  else
    let ext :=
      if contains_char dot file_path
      then lower (last (split dot file_path) [])
      else [] in
    if mem ext (map lit ["zip"; "rar"; "tar"; "gz"]%string) then
      if eqb ext (lit "zip") then Archive (_read_zip_file file_path)
      else if eqb ext (lit "rar") && RAR_SUPPORT w then Archive (_read_rar_file file_path)
      else if mem ext (map lit ["tar"; "gz"]%string) then Archive (_read_tar_file file_path)
      else Archive []
    else if supported ext then Text (_read_text_file file_path)
    else Text (_read_text_file file_path).

End Decoder.

(* ===================================================================== *)
(** ** File search orchestrator *)
(* ===================================================================== *)

(** An element of [results['archive_contents']]. *)
Record ArchiveEntryResult : Type := {
  ae_file_in_archive : str;
  ae_matches : list MatchRecord;
  ae_match_count : nat
}.

(** The dictionary [search_in_file] returns; [fr_error] is [None] while
    the key ['error'] is absent. *)
Record FileResult : Type := {
  fr_file : str;
  fr_matches : list MatchRecord;
  fr_archive_contents : list ArchiveEntryResult;
  fr_is_archive : bool;
  fr_match_count : nat;
  fr_error : option str
}.

(** The dictionary [search_in_file] starts from. *)
Definition new_results (file_path : str) : FileResult :=
  {| fr_file := file_path; fr_matches := []; fr_archive_contents := [];
     fr_is_archive := false; fr_match_count := 0; fr_error := None |}.

(** The updates of the dictionary. *)
Definition set_is_archive (b : bool) (r : FileResult) : FileResult :=
  {| fr_file := fr_file r; fr_matches := fr_matches r;
     fr_archive_contents := fr_archive_contents r; fr_is_archive := b;
     fr_match_count := fr_match_count r; fr_error := fr_error r |}.

Definition append_archive_contents (e : ArchiveEntryResult) (r : FileResult) : FileResult :=
  {| fr_file := fr_file r; fr_matches := fr_matches r;
     fr_archive_contents := fr_archive_contents r ++ [e];
     fr_is_archive := fr_is_archive r;
     fr_match_count := fr_match_count r; fr_error := fr_error r |}.

Definition add_match_count (n : nat) (r : FileResult) : FileResult :=
  {| fr_file := fr_file r; fr_matches := fr_matches r;
     fr_archive_contents := fr_archive_contents r; fr_is_archive := fr_is_archive r;
     fr_match_count := fr_match_count r + n; fr_error := fr_error r |}.

Definition set_matches (ms : list MatchRecord) (r : FileResult) : FileResult :=
  {| fr_file := fr_file r; fr_matches := ms;
     fr_archive_contents := fr_archive_contents r; fr_is_archive := fr_is_archive r;
     fr_match_count := fr_match_count r; fr_error := fr_error r |}.

Definition set_match_count (n : nat) (r : FileResult) : FileResult :=
  {| fr_file := fr_file r; fr_matches := fr_matches r;
     fr_archive_contents := fr_archive_contents r; fr_is_archive := fr_is_archive r;
     fr_match_count := n; fr_error := fr_error r |}.

Definition set_error (msg : str) (r : FileResult) : FileResult :=
  {| fr_file := fr_file r; fr_matches := fr_matches r;
     fr_archive_contents := fr_archive_contents r; fr_is_archive := fr_is_archive r;
     fr_match_count := fr_match_count r; fr_error := Some msg |}.

(** The truth value of a string or of a list. *)
Definition truthy {A : Type} (l : list A) : bool :=
  match l with [] => false | _ :: _ => true end.

Section Orchestrator.

Variable re : ReEngine.
Variable w : World.

(** [for filename, text in content.items()]: the dictionary [results] is
    updated in place, so what the loop did before an exception stays in
    it.  The second component is the exception that left the loop. *)
Fixpoint archive_loop (items : dict) (pattern : str) (case_sensitive regex : bool)
    (results : FileResult) : FileResult * option exn :=
  match items with
  | [] => (results, None)
  | (filename, text) :: rest =>
      if truthy text then
        match search_in_text re text pattern case_sensitive regex with
        | Raise e => (results, Some e)
        | Ok file_results =>
            if truthy file_results then
              let results :=
                append_archive_contents
                  {| ae_file_in_archive := filename;
                     ae_matches := file_results;
                     ae_match_count := length file_results |} results in
              let results := add_match_count (length file_results) results in
              archive_loop rest pattern case_sensitive regex results
            else archive_loop rest pattern case_sensitive regex results
        end
      else archive_loop rest pattern case_sensitive regex results
  end.

(** The body of the [try] block of [search_in_file]. *)
Definition search_body (file_path pattern : str) (case_sensitive regex : bool)
    (results : FileResult) : FileResult * option exn :=
  match read_file w file_path with
  | Archive content =>
      let results := set_is_archive true results in
      archive_loop content pattern case_sensitive regex results
  | Text content =>
      match search_in_text re content pattern case_sensitive regex with
      | Raise e => (results, Some e)
      | Ok file_results =>
          let results := set_matches file_results results in
          let results := set_match_count (length file_results) results in
          (results, None)
      end
  end.

(** [search_in_file(file_path, pattern, case_sensitive, regex)] *)
Definition search_in_file (file_path pattern : str) (case_sensitive regex : bool)
  : FileResult :=
  let results := new_results file_path in
  match search_body file_path pattern case_sensitive regex results with
  | (results, None) => results
  | (results, Some e) => set_error (exn_str e) results
  end.

(* ===================================================================== *)
(** ** Directory walker *)
(* ===================================================================== *)

(** The variables of the loop of [search_in_directory]; [searched] is a
    ghost trace of the paths [search_in_file] was called on. *)
Record walk : Type := {
  all_results : list FileResult;
  processed : nat;
  searched : list str
}.

(** One iteration of [for file_path in files].  The test
    [file_path.is_file()] may raise, and the loop has no handler. *)
Definition walk_step (pattern : str) (case_sensitive regex : bool)
    (st : walk) (file_path : str) : outcome walk :=
  regular <- is_file w file_path ;;
  if (regular : bool) then
    let processed := processed st + 1 in
    let ext := lower (slice_from (path_suffix file_path) 1) in
    if supported w ext || eqb ext [] then
      let result := search_in_file file_path pattern case_sensitive regex in
      Ok {| all_results :=
              if 0 <? fr_match_count result
              then all_results st ++ [result] else all_results st;
            processed := processed;
            searched := searched st ++ [file_path] |}
    else
      Ok {| all_results := all_results st; processed := processed;
            searched := searched st |}
  else Ok st.

(** The loop [for file_path in files], left at the first exception. *)
Fixpoint walk_loop (files : list str) (pattern : str) (case_sensitive regex : bool)
    (st : walk) : outcome walk :=
  match files with
  | [] => Ok st
  | file_path :: rest =>
      st' <- walk_step pattern case_sensitive regex st file_path ;;
      walk_loop rest pattern case_sensitive regex st'
  end.

Definition walk_files (files : list str) (pattern : str) (case_sensitive regex : bool)
  : outcome walk :=
  walk_loop files pattern case_sensitive regex
            {| all_results := []; processed := 0; searched := [] |}.

(** The files the walk enumerates. *)
Definition enumerate_files (directory file_pattern : str) (recursive : bool)
  : outcome (list str) :=
  if recursive then rglob w directory file_pattern else glob w directory file_pattern.

(** [search_in_directory(directory, pattern, file_pattern, recursive,
    case_sensitive, regex)] *)
Definition search_in_directory (directory pattern file_pattern : str)
    (recursive case_sensitive regex : bool) : outcome (list FileResult) :=
  files <- enumerate_files directory file_pattern recursive ;;
  st <- walk_files files pattern case_sensitive regex ;;
  Ok (all_results st).

End Orchestrator.

(* ===================================================================== *)
(** ** Predicates of the statements *)
(* ===================================================================== *)

(** [enumerate(lines, 1)] *)
Definition enumerate1 (lines : list str) : list (nat * str) :=
  combine (seq 1 (length lines)) lines.

(** The records the empty literal pattern is said to yield: for each line,
    one record with empty matched text at each position [0 .. n], where
    [n] is the length [width] assigns to the line. *)
Definition empty_pattern_records (width : str -> nat) (lines : list str)
  : list MatchRecord :=
  flat_map (fun il =>
              map (fun pos =>
                     {| mr_line := fst il; mr_position := pos; mr_match := [];
                        mr_context := _get_context (snd il) pos pos;
                        mr_full_line := snd il |})
                  (seq 0 (width (snd il) + 1)))
           (enumerate1 lines).

(** The line the literal branch searches in. *)
Definition searched_line (case_sensitive : bool) (line : str) : str :=
  if case_sensitive then line else lower line.

Definition is_some {A : Type} (o : option A) : bool :=
  match o with Some _ => true | None => false end.

(** The entries the zip and rar readers keep. *)
Definition zip_entry_kept (fi : ZipInfo) : bool :=
  negb (zi_is_dir fi)
  && mem (entry_ext (zi_filename fi)) archive_extensions
  && is_some (zi_text fi).

(** The members the tar reader keeps. *)
Definition tar_member_kept (m : TarInfo) : bool :=
  isfile (ti_type m)
  && mem (entry_ext (ti_name m)) archive_extensions
  && is_some (ti_text m).

(** The members the specification says are kept: every member that is not
    a directory, has a listed extension and decodes. *)
Definition tar_member_claimed (m : TarInfo) : bool :=
  negb (isdir (ti_type m))
  && mem (entry_ext (ti_name m)) archive_extensions
  && is_some (ti_text m).

(** The mode [_read_tar_file] opens the archive with. *)
Definition tar_mode_of (file_path : str) : tar_mode :=
  if endswith file_path (lit ".gz") then mode_r_gz else mode_r.

(** What the specification says of the keys of a decoded tar archive. *)
Definition tar_keys_claim (w : World) (file_path : str) : Prop :=
  forall name,
    In name (keys (_read_tar_file w file_path)) <->
    exists members m,
      tarfile_open w file_path (tar_mode_of file_path) = Some members
      /\ In m members /\ ti_name m = name /\ tar_member_claimed m = true.

(** The extension the walker computes: [file_path.suffix[1:].lower()] *)
Definition walk_ext (file_path : str) : str :=
  lower (slice_from (path_suffix file_path) 1).

(** [file_path.is_file()] returned true. *)
Definition regular_file (w : World) (file_path : str) : bool :=
  match is_file w file_path with
  | Ok b => b
  | Raise _ => false
  end.

(** The files the walker searches: regular files whose extension is
    supported or empty. *)
Definition searchable (w : World) (file_path : str) : bool :=
  regular_file w file_path
  && (supported w (walk_ext file_path) || eqb (walk_ext file_path) []).

(** The exception of the first [is_file()] test that raises, if any. *)
Fixpoint is_file_error (w : World) (files : list str) : option exn :=
  match files with
  | [] => None
  | file_path :: rest =>
      match is_file w file_path with
      | Ok _ => is_file_error w rest
      | Raise e => Some e
      end
  end.

Definition has_match (r : FileResult) : bool := 0 <? fr_match_count r.

(** A record of the literal branch: a hit in one of the lines. *)
Definition literal_hit (pattern : str) (case_sensitive : bool) (lines : list str)
    (r : MatchRecord) : Prop :=
  exists i line pos,
    In line lines
    /\ r = literal_record i line (length pattern) pos
    /\ slice (searched_line case_sensitive line) pos
             (pos + length (searched_line case_sensitive pattern))
       = searched_line case_sensitive pattern.

(** What holds of the dictionary throughout the loop over an archive. *)
Definition archive_inv (r : FileResult) : Prop :=
  fr_matches r = []
  /\ fr_is_archive r = true
  /\ fr_error r = None
  /\ fr_match_count r = list_sum (map ae_match_count (fr_archive_contents r))
  /\ Forall (fun e => ae_match_count e = length (ae_matches e)
                      /\ 0 < ae_match_count e)
            (fr_archive_contents r).

(** What the specification says of a match at offset 100 of a line of 200
    characters. *)
Definition context_claim_at_100 (line : str) (start end_ : nat) : Prop :=
  length line = 200 -> start = 100 -> start <= end_ <= length line ->
  startswith (_get_context line start end_) ellipsis = true
  /\ endswith (_get_context line start end_) ellipsis = true
  /\ length (_get_context line start end_) <= 100 + (end_ - start) + 6.


(** What the specification says of a regex search whose pattern fails to
    compile: it returns the empty list. *)
Definition compile_failure_claim (re : ReEngine) (text pattern : str)
    (case_sensitive : bool) : Prop :=
  (exists e, re_compile re pattern (if case_sensitive then NOFLAG else IGNORECASE)
             = Raise e) ->
  search_in_text re text pattern case_sensitive true = Ok [].

(* ===================================================================== *)
(** ** Concrete lines, archives and worlds *)
(* ===================================================================== *)

(** A line of 200 characters: 100 "b", then 100 "a". *)
Definition line_b100_a100 : str := repeat 98%N 100 ++ repeat 97%N 100.

(** A world of the given files: [texts] are the plain files, [zips] and
    [tars] the archives; every path of [paths] exists and is a regular
    file, and both enumerations yield [paths]. *)
Definition world_of (paths : list str) (texts : str -> encoding -> read_outcome)
    (zips : str -> option (list ZipInfo)) (tars : str -> option (list TarInfo))
  : World :=
  {| RAR_SUPPORT := false;
     path_exists := fun p => mem p paths;
     open_read := texts;
     ZipFile := zips;
     RarFile := fun _ => None;
     tarfile_open := fun p _ => tars p;
     rglob := fun _ _ => Ok paths;
     glob := fun _ _ => Ok paths;
     is_file := fun p => Ok (mem p paths) |}.

(** A tar archive with a regular file and a symbolic link to it. *)
Definition tar_with_link : list TarInfo :=
  [ {| ti_name := lit "real.txt"; ti_type := REGTYPE; ti_text := Some (lit "hello") |};
    {| ti_name := lit "link.txt"; ti_type := SYMTYPE; ti_text := Some (lit "hello") |} ].

Definition world_with_link : World :=
  world_of [lit "a.tar"] (fun _ _ => ReadFailure) (fun _ => None)
           (fun _ => Some tar_with_link).

(** A file that decodes neither as UTF-8 nor as Windows-1251 (it holds the
    byte 0x98, which Windows-1251 leaves undefined) but does as Latin-1. *)
Definition world_latin_1 : World :=
  world_of [lit "notes.txt"]
           (fun _ enc => match enc with
                         | latin_1 => ReadText [152%N]
                         | _ => UnicodeDecodeError
                         end)
           (fun _ => None) (fun _ => None).

(** A zip archive of two entries. *)
Definition zip_two_entries : list ZipInfo :=
  [ {| zi_filename := lit "a.txt"; zi_is_dir := false; zi_text := Some (lit "foo") |};
    {| zi_filename := lit "b.txt"; zi_is_dir := false;
       zi_text := Some (lit "foo and a long line") |} ].

Definition world_two_entries : World :=
  world_of [lit "logs.zip"] (fun _ _ => ReadFailure)
           (fun _ => Some zip_two_entries) (fun _ => None).

(** A directory of three files that match, two that do not, a file with an
    unsupported extension and a subdirectory.  As pathlib does, the
    enumerations reject the empty pattern. *)
Definition world_tree : World :=
  {| RAR_SUPPORT := false;
     path_exists := fun _ => true;
     open_read := fun p _ =>
       if mem p [lit "d/a.txt"; lit "d/c.txt"; lit "d/e.txt"; lit "d/img.png"]
       then ReadText (lit "hay needle hay")
       else ReadText (lit "hay");
     ZipFile := fun _ => None;
     RarFile := fun _ => None;
     tarfile_open := fun _ _ => None;
     rglob := fun _ file_pattern =>
       if truthy file_pattern
       then Ok [lit "d/a.txt"; lit "d/b.txt"; lit "d/sub"; lit "d/c.txt";
                lit "d/img.png"; lit "d/d.txt"; lit "d/e.txt"]
       else Raise (other_exception (lit "Unacceptable pattern: ''"));
     glob := fun _ file_pattern =>
       if truthy file_pattern
       then Ok [lit "d/a.txt"; lit "d/b.txt"; lit "d/sub"; lit "d/c.txt";
                lit "d/img.png"; lit "d/d.txt"; lit "d/e.txt"]
       else Raise (other_exception (lit "Unacceptable pattern: ''"));
     is_file := fun p => Ok (negb (eqb p (lit "d/sub"))) |}.


(** A tar.gz archive with an unreadable member and a matching one. *)
Definition world_corrupt_member : World :=
  world_of [lit "logs.tar.gz"] (fun _ _ => ReadFailure) (fun _ => None)
           (fun _ =>
              Some [ {| ti_name := lit "bad.log"; ti_type := REGTYPE; ti_text := None |};
                     {| ti_name := lit "good.log"; ti_type := REGTYPE;
                        ti_text := Some (lit "needle") |} ]).

(* ===================================================================== *)
(** ** Further predicates: the results of the literal and regex searches *)
(* ===================================================================== *)

(** [s[p : p + len(sub)] == sub], for [p <= len(s)]. *)
Definition occurs_at (s sub : str) (p : nat) : bool := startswith (skipn p s) sub.

(** The offsets of the occurrences of [sub] in [s] at or after [start], in
    increasing order. *)
Definition occurrences (s sub : str) (start : nat) : list nat :=
  filter (occurs_at s sub) (seq start (S (length s) - start)).

(** The records of one numbered line: one for each occurrence of the
    pattern in the line as it is searched. *)
Definition line_records (pattern : str) (case_sensitive : bool) (il : nat * str)
  : list MatchRecord :=
  map (literal_record (fst il) (snd il) (length pattern))
      (occurrences (searched_line case_sensitive (snd il))
                   (searched_line case_sensitive pattern) 0).

(** The literal branch of [search_in_text] with [str.lower] as a
    parameter [fold_case]: the same loops, searching in [fold_case line]
    for [fold_case pattern] when the search is not case-sensitive. *)
Section AnyCaseFolding.

Variable fold_case : str -> str.

Definition literal_line_with (pattern : str) (case_sensitive : bool)
    (i : nat) (line : str) (results : list MatchRecord) : list MatchRecord :=
  let line_to_search := if case_sensitive then line else fold_case line in
  let pattern_to_use := if case_sensitive then pattern else fold_case pattern in
  let start := 0 in
  let pattern_len := length pattern in
  literal_scan i line line_to_search pattern_to_use pattern_len start results.

Fixpoint literal_lines_with (pattern : str) (case_sensitive : bool)
    (i : nat) (lines : list str) (results : list MatchRecord) : list MatchRecord :=
  match lines with
  | [] => results
  | line :: rest =>
      literal_lines_with pattern case_sensitive (S i) rest
                         (literal_line_with pattern case_sensitive i line results)
  end.

(** [search_in_text(text, pattern, case_sensitive, regex=False)] *)
Definition literal_search_with (text pattern : str) (case_sensitive : bool)
  : list MatchRecord :=
  let results := [] in
  match text with
  | [] => results
  | _ :: _ =>
      let lines := split newline text in
      literal_lines_with pattern case_sensitive 1 lines results
  end.

(** The string that is searched, or searched for. *)
Definition searched_with (case_sensitive : bool) (s : str) : str :=
  if case_sensitive then s else fold_case s.

(** The records of one numbered line: one for each occurrence of the
    pattern in the line, both as they are searched. *)
Definition line_records_with (pattern : str) (case_sensitive : bool)
    (il : nat * str) : list MatchRecord :=
  map (literal_record (fst il) (snd il) (length pattern))
      (occurrences (searched_with case_sensitive (snd il))
                   (searched_with case_sensitive pattern) 0).

End AnyCaseFolding.

(** The place of a record, and the order of places: by line, then by
    position. *)
Definition place (r : MatchRecord) : nat * nat := (mr_line r, mr_position r).

Definition place_lt (a b : nat * nat) : Prop :=
  fst a < fst b \/ (fst a = fst b /\ snd a < snd b).

(** [finditer] on every line in turn, up to the first exception. *)
Fixpoint finditer_lines (re : ReEngine) (rx : re_pattern re) (lines : list str)
  : outcome (list (list (nat * nat))) :=
  match lines with
  | [] => Ok []
  | line :: rest =>
      spans <- re_finditer re rx line ;;
      more <- finditer_lines re rx rest ;;
      Ok (spans :: more)
  end.

(** The records of the spans found in numbered lines. *)
Definition span_records (ils : list ((nat * str) * list (nat * nat)))
  : list MatchRecord :=
  flat_map (fun x => map (regex_record (fst (fst x)) (snd (fst x))) (snd x)) ils.

(* ===================================================================== *)
(** ** Further predicates: decoded archives and file results *)
(* ===================================================================== *)

(** [d.get(k)] *)
Fixpoint dict_get (k : str) (d : dict) : option str :=
  match d with
  | [] => None
  | (k', v) :: d' => if eqb k' k then Some v else dict_get k d'
  end.

(** The text of the last kept entry named [name], or [before] when no
    entry of that name is kept. *)
Definition last_zip_text (name : str) (infos : list ZipInfo) (before : option str)
  : option str :=
  fold_left (fun acc fi =>
               if zip_entry_kept fi && eqb (zi_filename fi) name
               then zi_text fi else acc)
            infos before.

Definition last_tar_text (name : str) (members : list TarInfo) (before : option str)
  : option str :=
  fold_left (fun acc m =>
               if tar_member_kept m && eqb (ti_name m) name
               then ti_text m else acc)
            members before.

(** The extension [read_file] dispatches on:
    [file_path.split('.')[-1].lower() if '.' in file_path else ''] *)
Definition dispatch_ext (file_path : str) : str :=
  if contains_char dot file_path
  then lower (last (split dot file_path) [])
  else [].

(** What one item of a decoded archive adds to [archive_contents] when its
    search does not raise: one element if the text is not empty and has a
    match, nothing otherwise. *)
Definition entry_results (re : ReEngine) (pattern : str) (case_sensitive regex : bool)
    (item : str * str) : list ArchiveEntryResult :=
  if truthy (snd item) then
    match search_in_text re (snd item) pattern case_sensitive regex with
    | Ok (m :: ms) =>
        [ {| ae_file_in_archive := fst item; ae_matches := m :: ms;
             ae_match_count := length (m :: ms) |} ]
    | _ => []
    end
  else [].

(* ===================================================================== *)
(** ** The front end (class [FileSearchGUI]) *)
(* ===================================================================== *)

(** The widgets are modelled by what they hold: the tree by the list of
    its rows, the text box by the list of the inserted texts with their
    tags, the status bar by its string, the message boxes by the list of
    the dialogs shown.  [start_search] is embedded for one search at a
    time: the worker thread and the call it schedules run to their end
    before the next event.  A search started while another is running,
    where the two threads write [current_results] and the tree in an
    order the source does not fix, is outside this embedding; what is
    stated about the table is stated about [display_results]. *)

(** [str(n)] for an integer [n >= 0]. *)
Fixpoint digits (u : Decimal.uint) : str :=
  match u with
  | Decimal.Nil => []
  | Decimal.D0 u => 48%N :: digits u
  | Decimal.D1 u => 49%N :: digits u
  | Decimal.D2 u => 50%N :: digits u
  | Decimal.D3 u => 51%N :: digits u
  | Decimal.D4 u => 52%N :: digits u
  | Decimal.D5 u => 53%N :: digits u
  | Decimal.D6 u => 54%N :: digits u
  | Decimal.D7 u => 55%N :: digits u
  | Decimal.D8 u => 56%N :: digits u
  | Decimal.D9 u => 57%N :: digits u
  end.

Definition str_of_nat (n : nat) : str := digits (Nat.to_uint n).

(** [c.isspace()] *)
Definition isspace (c : char) : bool :=
  ((9 <=? c) && (c <=? 13) || (28 <=? c) && (c <=? 32)
   || (c =? 133) || (c =? 160) || (c =? 5760)
   || (8192 <=? c) && (c <=? 8202)
   || (c =? 8232) || (c =? 8233) || (c =? 8239) || (c =? 8287)
   || (c =? 12288))%N.

(** [s.lstrip()], [s.rstrip()] and [s.strip()] *)
Fixpoint lstrip (s : str) : str :=
  match s with
  | [] => []
  | c :: s' => if isspace c then lstrip s' else s
  end.

Definition rstrip (s : str) : str := rev (lstrip (rev s)).

Definition strip (s : str) : str := lstrip (rstrip s).

(** The texts of the front end, as code points.  Each comment gives the
    literal of the source; a newline in it is written [\n]. *)

(* Файл *)
Definition s_file_type : str :=
  [1060%N; 1072%N; 1081%N; 1083%N].

(* Архив ( *)
Definition s_archive_open : str :=
  [1040%N; 1088%N; 1093%N; 1080%N; 1074%N; 32%N; 40%N].

(*  файлов) *)
Definition s_archive_close : str :=
  [32%N; 1092%N; 1072%N; 1081%N; 1083%N; 1086%N; 1074%N; 41%N].

(* Найдено  *)
Definition s_found : str :=
  [1053%N; 1072%N; 1081%N; 1076%N; 1077%N; 1085%N; 1086%N; 32%N].

(*  совпадений в  *)
Definition s_matches_in : str :=
  [32%N; 1089%N; 1086%N; 1074%N; 1087%N; 1072%N; 1076%N; 1077%N; 1085%N;
   1080%N; 1081%N; 32%N; 1074%N; 32%N].

(*  файлах *)
Definition s_files : str :=
  [32%N; 1092%N; 1072%N; 1081%N; 1083%N; 1072%N; 1093%N].

(* Внимание *)
Definition s_attention : str :=
  [1042%N; 1085%N; 1080%N; 1084%N; 1072%N; 1085%N; 1080%N; 1077%N].

(* Введите строку для поиска! *)
Definition s_enter_pattern : str :=
  [1042%N; 1074%N; 1077%N; 1076%N; 1080%N; 1090%N; 1077%N; 32%N; 1089%N;
   1090%N; 1088%N; 1086%N; 1082%N; 1091%N; 32%N; 1076%N; 1083%N; 1103%N;
   32%N; 1087%N; 1086%N; 1080%N; 1089%N; 1082%N; 1072%N; 33%N].

(* Укажите путь для поиска! *)
Definition s_enter_path : str :=
  [1059%N; 1082%N; 1072%N; 1078%N; 1080%N; 1090%N; 1077%N; 32%N; 1087%N;
   1091%N; 1090%N; 1100%N; 32%N; 1076%N; 1083%N; 1103%N; 32%N; 1087%N;
   1086%N; 1080%N; 1089%N; 1082%N; 1072%N; 33%N].

(* Ошибка *)
Definition s_error : str :=
  [1054%N; 1096%N; 1080%N; 1073%N; 1082%N; 1072%N].

(* Путь не существует:  *)
Definition s_no_path : str :=
  [1055%N; 1091%N; 1090%N; 1100%N; 32%N; 1085%N; 1077%N; 32%N; 1089%N;
   1091%N; 1097%N; 1077%N; 1089%N; 1090%N; 1074%N; 1091%N; 1077%N; 1090%N;
   58%N; 32%N].

(* Выполняется поиск... *)
Definition s_searching : str :=
  [1042%N; 1099%N; 1087%N; 1086%N; 1083%N; 1085%N; 1103%N; 1077%N; 1090%N;
   1089%N; 1103%N; 32%N; 1087%N; 1086%N; 1080%N; 1089%N; 1082%N; 46%N; 46%N;
   46%N].

(* Готов к поиску *)
Definition s_ready : str :=
  [1043%N; 1086%N; 1090%N; 1086%N; 1074%N; 32%N; 1082%N; 32%N; 1087%N;
   1086%N; 1080%N; 1089%N; 1082%N; 1091%N].

(* Произошла ошибка:\n *)
Definition s_error_occurred : str :=
  [1055%N; 1088%N; 1086%N; 1080%N; 1079%N; 1086%N; 1096%N; 1083%N; 1072%N;
   32%N; 1086%N; 1096%N; 1080%N; 1073%N; 1082%N; 1072%N; 58%N; 10%N].

(* Ошибка при выполнении поиска *)
Definition s_search_failed : str :=
  [1054%N; 1096%N; 1080%N; 1073%N; 1082%N; 1072%N; 32%N; 1087%N; 1088%N;
   1080%N; 32%N; 1074%N; 1099%N; 1087%N; 1086%N; 1083%N; 1085%N; 1077%N;
   1085%N; 1080%N; 1080%N; 32%N; 1087%N; 1086%N; 1080%N; 1089%N; 1082%N;
   1072%N].

(* Файл:  *)
Definition s_d_file : str :=
  [1060%N; 1072%N; 1081%N; 1083%N; 58%N; 32%N].

(* Всего совпадений:  *)
Definition s_d_total : str :=
  [1042%N; 1089%N; 1077%N; 1075%N; 1086%N; 32%N; 1089%N; 1086%N; 1074%N;
   1087%N; 1072%N; 1076%N; 1077%N; 1085%N; 1080%N; 1081%N; 58%N; 32%N].

(* \nФайл в архиве:  *)
Definition s_d_entry : str :=
  [10%N; 1060%N; 1072%N; 1081%N; 1083%N; 32%N; 1074%N; 32%N; 1072%N; 1088%N;
   1093%N; 1080%N; 1074%N; 1077%N; 58%N; 32%N].

(* Совпадений:  *)
Definition s_d_count : str :=
  [1057%N; 1086%N; 1074%N; 1087%N; 1072%N; 1076%N; 1077%N; 1085%N; 1080%N;
   1081%N; 58%N; 32%N].

(* \n  Строка  *)
Definition s_d_line_indented : str :=
  [10%N; 32%N; 32%N; 1057%N; 1090%N; 1088%N; 1086%N; 1082%N; 1072%N; 32%N].

(* \nСтрока  *)
Definition s_d_line : str :=
  [10%N; 1057%N; 1090%N; 1088%N; 1086%N; 1082%N; 1072%N; 32%N].

(* , позиция  *)
Definition s_d_position : str :=
  [44%N; 32%N; 1087%N; 1086%N; 1079%N; 1080%N; 1094%N; 1080%N; 1103%N;
   32%N].

(*   → Найдено: ' *)
Definition s_d_found_indented : str :=
  [32%N; 32%N; 8594%N; 32%N; 1053%N; 1072%N; 1081%N; 1076%N; 1077%N; 1085%N;
   1086%N; 58%N; 32%N; 39%N].

(* → Найдено: ' *)
Definition s_d_found : str :=
  [8594%N; 32%N; 1053%N; 1072%N; 1081%N; 1076%N; 1077%N; 1085%N; 1086%N;
   58%N; 32%N; 39%N].

(* \n  ... и еще  *)
Definition s_d_more_indented : str :=
  [10%N; 32%N; 32%N; 46%N; 46%N; 46%N; 32%N; 1080%N; 32%N; 1077%N; 1097%N;
   1077%N; 32%N].

(* \n... и еще  *)
Definition s_d_more : str :=
  [10%N; 46%N; 46%N; 46%N; 32%N; 1080%N; 32%N; 1077%N; 1097%N; 1077%N;
   32%N].

(*  совпадений\n *)
Definition s_d_matches : str :=
  [32%N; 1089%N; 1086%N; 1074%N; 1087%N; 1072%N; 1076%N; 1077%N; 1085%N;
   1080%N; 1081%N; 10%N].

(* Нет результатов для экспорта! *)
Definition s_nothing_to_export : str :=
  [1053%N; 1077%N; 1090%N; 32%N; 1088%N; 1077%N; 1079%N; 1091%N; 1083%N;
   1100%N; 1090%N; 1072%N; 1090%N; 1086%N; 1074%N; 32%N; 1076%N; 1083%N;
   1103%N; 32%N; 1101%N; 1082%N; 1089%N; 1087%N; 1086%N; 1088%N; 1090%N;
   1072%N; 33%N].

(* Результаты поиска\n *)
Definition s_x_title : str :=
  [1056%N; 1077%N; 1079%N; 1091%N; 1083%N; 1100%N; 1090%N; 1072%N; 1090%N;
   1099%N; 32%N; 1087%N; 1086%N; 1080%N; 1089%N; 1082%N; 1072%N; 10%N].

(* Дата:  *)
Definition s_x_date : str :=
  [1044%N; 1072%N; 1090%N; 1072%N; 58%N; 32%N].

(* Строка поиска:  *)
Definition s_x_pattern : str :=
  [1057%N; 1090%N; 1088%N; 1086%N; 1082%N; 1072%N; 32%N; 1087%N; 1086%N;
   1080%N; 1089%N; 1082%N; 1072%N; 58%N; 32%N].

(* Путь:  *)
Definition s_x_path : str :=
  [1055%N; 1091%N; 1090%N; 1100%N; 58%N; 32%N].

(* \nФайл:  *)
Definition s_x_file : str :=
  [10%N; 1060%N; 1072%N; 1081%N; 1083%N; 58%N; 32%N].

(* Совпадений:  *)
Definition s_x_count : str :=
  [1057%N; 1086%N; 1074%N; 1087%N; 1072%N; 1076%N; 1077%N; 1085%N; 1080%N;
   1081%N; 58%N; 32%N].

(* \n  Файл в архиве:  *)
Definition s_x_entry : str :=
  [10%N; 32%N; 32%N; 1060%N; 1072%N; 1081%N; 1083%N; 32%N; 1074%N; 32%N;
   1072%N; 1088%N; 1093%N; 1080%N; 1074%N; 1077%N; 58%N; 32%N].

(*     Строка  *)
Definition s_x_line_indented : str :=
  [32%N; 32%N; 32%N; 32%N; 1057%N; 1090%N; 1088%N; 1086%N; 1082%N; 1072%N;
   32%N].

(*   Строка  *)
Definition s_x_line : str :=
  [32%N; 32%N; 1057%N; 1090%N; 1088%N; 1086%N; 1082%N; 1072%N; 32%N].

(* Успех *)
Definition s_success : str :=
  [1059%N; 1089%N; 1087%N; 1077%N; 1093%N].

(* Результаты экспортированы в:\n *)
Definition s_exported_to : str :=
  [1056%N; 1077%N; 1079%N; 1091%N; 1083%N; 1100%N; 1090%N; 1072%N; 1090%N;
   1099%N; 32%N; 1101%N; 1082%N; 1089%N; 1087%N; 1086%N; 1088%N; 1090%N;
   1080%N; 1088%N; 1086%N; 1074%N; 1072%N; 1085%N; 1099%N; 32%N; 1074%N;
   58%N; 10%N].

(* Не удалось экспортировать результаты:\n *)
Definition s_export_failed : str :=
  [1053%N; 1077%N; 32%N; 1091%N; 1076%N; 1072%N; 1083%N; 1086%N; 1089%N;
   1100%N; 32%N; 1101%N; 1082%N; 1089%N; 1087%N; 1086%N; 1088%N; 1090%N;
   1080%N; 1088%N; 1086%N; 1074%N; 1072%N; 1090%N; 1100%N; 32%N; 1088%N;
   1077%N; 1079%N; 1091%N; 1083%N; 1100%N; 1090%N; 1072%N; 1090%N; 1099%N;
   58%N; 10%N].

(** [x or y] for strings. *)
Definition or_else (x y : str) : str := if truthy x then x else y.

Inductive dialog : Type :=
| showwarning (title message : str)
| showerror (title message : str)
| showinfo (title message : str).

(** A row of the tree: the three values and the tag. *)
Record TreeRow : Type := {
  row_file : str;
  row_matches : nat;
  row_type : str;
  row_tag : str
}.

(** What the user entered and ticked. *)
Record Inputs : Type := {
  search_entry : str;
  path_entry : str;
  pattern_entry : str;
  search_type : str;
  case_var : bool;
  regex_var : bool;
  recursive_var : bool
}.

(** What the window shows and remembers. *)
Record View : Type := {
  tree : list TreeRow;
  details_text : list (str * str);
  status_var : str;
  current_results : list FileResult;
  progress_running : bool;
  dialogs : list dialog
}.

Definition new_view : View :=
  {| tree := []; details_text := []; status_var := s_ready;
     current_results := []; progress_running := false; dialogs := [] |}.

Definition set_tree (rows : list TreeRow) (v : View) : View :=
  {| tree := rows; details_text := details_text v; status_var := status_var v;
     current_results := current_results v;
     progress_running := progress_running v; dialogs := dialogs v |}.

Definition set_details (d : list (str * str)) (v : View) : View :=
  {| tree := tree v; details_text := d; status_var := status_var v;
     current_results := current_results v;
     progress_running := progress_running v; dialogs := dialogs v |}.

Definition set_status (s : str) (v : View) : View :=
  {| tree := tree v; details_text := details_text v; status_var := s;
     current_results := current_results v;
     progress_running := progress_running v; dialogs := dialogs v |}.

Definition set_current_results (rs : list FileResult) (v : View) : View :=
  {| tree := tree v; details_text := details_text v; status_var := status_var v;
     current_results := rs;
     progress_running := progress_running v; dialogs := dialogs v |}.

Definition set_progress (b : bool) (v : View) : View :=
  {| tree := tree v; details_text := details_text v; status_var := status_var v;
     current_results := current_results v;
     progress_running := b; dialogs := dialogs v |}.

Definition show (d : dialog) (v : View) : View :=
  {| tree := tree v; details_text := details_text v; status_var := status_var v;
     current_results := current_results v;
     progress_running := progress_running v; dialogs := dialogs v ++ [d] |}.

(** One iteration of the loop of [display_results]: the running total and
    the rows of the tree. *)
Definition display_step (st : nat * list TreeRow) (result : FileResult)
  : nat * list TreeRow :=
  let matches_count := fr_match_count result in
  let file_type :=
    if fr_is_archive result
    then s_archive_open ++ str_of_nat (length (fr_archive_contents result))
         ++ s_archive_close
    else s_file_type in
  if 0 <? matches_count then
    let total_matches := fst st + matches_count in
    let tag := if fr_is_archive result then lit "archive" else lit "file" in
    (total_matches,
     snd st ++ [ {| row_file := fr_file result; row_matches := matches_count;
                    row_type := file_type; row_tag := tag |} ])
  else st.

(** [display_results(results)] *)
Definition display_results (v : View) (results : list FileResult) : View :=
  let total_files := length results in
  let st := fold_left display_step results (0, tree v) in
  let v := set_tree (snd st) v in
  set_status (s_found ++ str_of_nat (fst st) ++ s_matches_in
              ++ str_of_nat total_files ++ s_files) v.

(** [show_error(error_msg)] *)
Definition show_error (v : View) (error_msg : str) : View :=
  set_status s_search_failed (show (showerror s_error (s_error_occurred ++ error_msg)) v).

(** [clear_results()] *)
Definition clear_results (v : View) : View :=
  set_status s_ready (set_current_results [] (set_details [] (set_tree [] v))).

(** The inserts of [display_result_details] for one match; [indent] is
    the two spaces of the archive branch. *)
Definition match_details (archive : bool) (m : MatchRecord) : list (str * str) :=
  [ ((if archive then s_d_line_indented else s_d_line)
     ++ str_of_nat (mr_line m) ++ s_d_position ++ str_of_nat (mr_position m)
     ++ lit ":" ++ [newline], []);
    ((if archive then lit "  " else []) ++ mr_context m ++ [newline], []);
    ((if archive then s_d_found_indented else s_d_found)
     ++ mr_match m ++ lit "'" ++ [newline], []) ].

Definition entry_details (arc_file : ArchiveEntryResult) : list (str * str) :=
  [ (s_d_entry ++ ae_file_in_archive arc_file ++ [newline], lit "subheader");
    (s_d_count ++ str_of_nat (ae_match_count arc_file) ++ [newline], []) ]
  ++ flat_map (match_details true) (firstn 10 (ae_matches arc_file))
  ++ (if 10 <? ae_match_count arc_file
      then [ (s_d_more_indented ++ str_of_nat (ae_match_count arc_file - 10)
              ++ s_d_matches, []) ]
      else []).

(** [display_result_details(result)] *)
Definition display_result_details (v : View) (result : FileResult) : View :=
  set_details
    ([ (s_d_file ++ fr_file result ++ [newline], lit "header");
       (s_d_total ++ str_of_nat (fr_match_count result) ++ [newline; newline], []) ]
     ++ (if fr_is_archive result
         then flat_map entry_details (fr_archive_contents result)
         else flat_map (match_details false) (firstn 20 (fr_matches result))
              ++ (if 20 <? fr_match_count result
                  then [ (s_d_more ++ str_of_nat (fr_match_count result - 20)
                          ++ s_d_matches, []) ]
                  else [])))
    v.

(** [on_tree_select(event)]; the selected items are given by their index
    in the tree, which is what [tree.index] returns for them. *)
Definition on_tree_select (v : View) (selection : list nat) : View :=
  match selection with
  | [] => v
  | item_idx :: _ =>
      match nth_error (current_results v) item_idx with
      | Some result => display_result_details v result
      | None => v
      end
  end.

Section FrontEnd.

Variable re : ReEngine.
Variable w : World.

(** [perform_search(pattern, path)]; the call scheduled with
    [root.after(0, ...)] is made at once. *)
Definition perform_search (i : Inputs) (v : View) (pattern path : str) : View :=
  let attempt : outcome (list FileResult) :=
    if eqb (search_type i) (lit "file") then
      Ok [search_in_file re w path pattern (case_var i) (regex_var i)]
    else if eqb (search_type i) (lit "dir") then
      search_in_directory re w path pattern (lit "*") (recursive_var i)
                          (case_var i) (regex_var i)
    else
      let file_pattern := or_else (strip (pattern_entry i)) (lit "*") in
      search_in_directory re w path pattern file_pattern (recursive_var i)
                          (case_var i) (regex_var i) in
  match attempt with
  | Ok results => display_results (set_current_results results v) results
  | Raise e => show_error v (exn_str e)
  end.

(** [start_search()] *)
Definition start_search (i : Inputs) (v : View) : View :=
  let pattern := strip (search_entry i) in
  if negb (truthy pattern) then show (showwarning s_attention s_enter_pattern) v
  else
    let path := strip (path_entry i) in
    if negb (truthy path) then show (showwarning s_attention s_enter_path) v
    else if negb (path_exists w path)
         then show (showerror s_error (s_no_path ++ path)) v
    else
      let v := set_current_results [] (set_details [] (set_tree [] v)) in
      let v := set_status s_searching (set_progress true v) in
      perform_search i v pattern path.

End FrontEnd.

(** The names bound at module level: the imports, [RAR_SUPPORT], the two
    classes and [main]; [rarfile] only when its import succeeded.  The
    statement [import time] stands in the body of [main] and binds a
    local name of [main]. *)
Definition module_globals (rar_support : bool) : list string :=
  ["os"; "re"; "zipfile"; "tarfile"; "Path"; "List"; "Dict"; "Union";
   "Optional"; "tk"; "ttk"; "filedialog"; "scrolledtext"; "messagebox";
   "threading"; "RAR_SUPPORT"; "UniversalFileSearcher"; "FileSearchGUI";
   "main"]%string
  ++ (if rar_support then ["rarfile"%string] else []).

(** The local names of [export_results]. *)
Definition export_locals : list string :=
  ["self"; "file_path"; "f"; "result"; "arc_file"; "match"; "e"]%string.

Definition name_bound (names : list string) (x : string) : bool :=
  existsb (String.eqb x) names.

(** The evaluation of [time.strftime('%Y-%m-%d %H:%M:%S')] inside
    [export_results]: the name [time] is looked up among the locals of the
    method and the globals of the module (no builtin has that name);
    [clock] is what the call would return. *)
Definition eval_time_strftime (rar_support : bool) (clock : str) : outcome str :=
  if name_bound export_locals "time" || name_bound (module_globals rar_support) "time"
  then Ok clock
  else Raise (other_exception (lit "name 'time' is not defined")).

(** The arguments of the successive [f.write] calls for one result. *)
Definition export_result_writes (result : FileResult) : list (outcome str) :=
  [ Ok (s_x_file ++ fr_file result ++ [newline]);
    Ok (s_x_count ++ str_of_nat (fr_match_count result) ++ [newline]) ]
  ++ (if fr_is_archive result
      then flat_map
             (fun arc_file =>
                Ok (s_x_entry ++ ae_file_in_archive arc_file ++ [newline])
                :: map (fun m => Ok (s_x_line_indented ++ str_of_nat (mr_line m)
                                     ++ lit ": " ++ mr_full_line m ++ [newline]))
                       (ae_matches arc_file))
             (fr_archive_contents result)
      else map (fun m => Ok (s_x_line ++ str_of_nat (mr_line m)
                             ++ lit ": " ++ mr_full_line m ++ [newline]))
               (fr_matches result))
  ++ [ Ok ([newline] ++ repeat 45%N 80 ++ [newline]) ].

(** The arguments of all the [f.write] calls of [export_results], in
    order; an argument whose evaluation raises is the exception. *)
Definition export_writes (rar_support : bool) (clock : str) (i : Inputs) (v : View)
  : list (outcome str) :=
  [ Ok s_x_title;
    (t <- eval_time_strftime rar_support clock ;; Ok (s_x_date ++ t ++ [newline]));
    Ok (s_x_pattern ++ search_entry i ++ [newline]);
    Ok (s_x_path ++ path_entry i ++ [newline]);
    Ok (repeat 61%N 80 ++ [newline; newline]) ]
  ++ flat_map export_result_writes (current_results v).

(** The [with] block: the writes are made in order into the file, up to
    the first argument that raises; the file is closed with what was
    written. *)
Fixpoint run_writes (writes : list (outcome str)) (file : str) : str * option exn :=
  match writes with
  | [] => (file, None)
  | Ok text :: rest => run_writes rest (file ++ text)
  | Raise e :: _ => (file, Some e)
  end.

(** [export_results()].  [chosen] is what the save dialog returns, empty
    when it is cancelled; [open_error] is the exception of opening the
    chosen file for writing, if it raises.  The result is the file
    written, if any, with its content, and the view. *)
Definition export_results (rar_support : bool) (clock : str)
    (chosen : str) (open_error : option exn) (i : Inputs) (v : View)
  : option (str * str) * View :=
  if negb (truthy (current_results v))
  then (None, show (showwarning s_attention s_nothing_to_export) v)
  else
    let file_path := chosen in
    if truthy file_path then
      match open_error with
      | None =>
          match run_writes (export_writes rar_support clock i v) [] with
          | (file, None) =>
              (Some (file_path, file),
               show (showinfo s_success (s_exported_to ++ file_path)) v)
          | (file, Some e) =>
              (Some (file_path, file),
               show (showerror s_error (s_export_failed ++ exn_str e)) v)
          end
      | Some e =>
          (None, show (showerror s_error (s_export_failed ++ exn_str e)) v)
      end
    else (None, v).

(** The row [display_results] inserts for a result with a match. *)
Definition result_row (result : FileResult) : TreeRow :=
  {| row_file := fr_file result;
     row_matches := fr_match_count result;
     row_type :=
       if fr_is_archive result
       then s_archive_open ++ str_of_nat (length (fr_archive_contents result))
            ++ s_archive_close
       else s_file_type;
     row_tag := if fr_is_archive result then lit "archive" else lit "file" |}.

(** The view [start_search] hands to the worker. *)
Definition cleared_view (v : View) : View :=
  set_status s_searching
    (set_progress true (set_current_results [] (set_details [] (set_tree [] v)))).

(** The entries of a directory search for "needle" in the tree of
    [world_tree]. *)
Definition inputs_tree : Inputs :=
  {| search_entry := lit " needle "; path_entry := lit "d";
     pattern_entry := lit "*.txt"; search_type := lit "dir";
     case_var := false; regex_var := false; recursive_var := true |}.

(* ===================================================================== *)
(** ** Strings: basic facts *)
(* ===================================================================== *)

Lemma char_eqb_eq c d : char_eqb c d = true <-> c = d.
Proof. apply N.eqb_eq. Qed.

Lemma eqb_eq s t : eqb s t = true <-> s = t.
Proof.
  revert t; induction s as [|c s IH]; intros [|d t]; simpl; split;
    try congruence; try reflexivity.
  - intros H. apply andb_true_iff in H as [Hc Hs].
    apply char_eqb_eq in Hc. apply IH in Hs. congruence.
  - intros [= -> ->]. apply andb_true_iff. split.
    + now apply char_eqb_eq.
    + now apply IH.
Qed.

Lemma eqb_refl s : eqb s s = true.
Proof. now apply eqb_eq. Qed.

Lemma startswith_nil s : startswith s [] = true.
Proof. now destruct s. Qed.

Lemma startswith_app s sub :
  startswith s sub = true <-> exists rest, s = sub ++ rest.
Proof.
  revert s; induction sub as [|c sub IH]; intros s.
  - rewrite startswith_nil. split; [exists s; reflexivity | reflexivity].
  - destruct s as [|d s]; simpl.
    + split; [discriminate | intros [rest H]; discriminate].
    + rewrite andb_true_iff, char_eqb_eq, IH. split.
      * intros [-> [rest ->]]. now exists rest.
      * intros [rest [= -> ->]]. split; [reflexivity | now exists rest].
Qed.

Lemma find_at_bounds sub s k p :
  find_at s sub k = Some p -> k <= p <= k + length s.
Proof.
  revert k; induction s as [|c s IH]; intros k; cbn [find_at length].
  - destruct (startswith [] sub); intros [=]; lia.
  - destruct (startswith (c :: s) sub); intros H.
    + injection H as <-. lia.
    + apply IH in H. lia.
Qed.

(** An index [find_at] returns is the offset of an occurrence. *)
Lemma find_at_occurs sub s k p :
  find_at s sub k = Some p -> startswith (skipn (p - k) s) sub = true.
Proof.
  revert k; induction s as [|c s IH]; intros k; cbn [find_at].
  - destruct (startswith [] sub) eqn:E; intros [=]; subst.
    now rewrite Nat.sub_diag.
  - destruct (startswith (c :: s) sub) eqn:E; intros H.
    + injection H as <-. now rewrite Nat.sub_diag.
    + pose proof (find_at_bounds _ _ _ H) as Hb.
      apply IH in H. replace (p - k) with (S (p - S k)) by lia. exact H.
Qed.

Lemma find_bounds s sub start p :
  find s sub start = Some p -> start <= p <= length s.
Proof.
  unfold find. destruct (length s <? start) eqn:E; [discriminate|].
  apply Nat.ltb_ge in E. intros H. apply find_at_bounds in H.
  rewrite length_skipn in H. lia.
Qed.

(** [s.find(sub, start)] returns the offset of an occurrence of [sub]. *)
Lemma find_occurs s sub start p :
  find s sub start = Some p -> slice s p (p + length sub) = sub.
Proof.
  unfold find. destruct (length s <? start) eqn:E; [discriminate|].
  intros H. pose proof (find_at_bounds _ _ _ H) as Hb.
  apply find_at_occurs in H. rewrite skipn_skipn in H.
  replace (p - start + start) with p in H by lia.
  apply startswith_app in H as [rest H].
  unfold slice. rewrite H.
  replace (p + length sub - p) with (length sub + 0) by lia.
  rewrite firstn_app_2. simpl. apply app_nil_r.
Qed.

Lemma find_empty s start :
  find s [] start = if length s <? start then None else Some start.
Proof.
  unfold find. destruct (length s <? start); [reflexivity|].
  destruct (skipn start s); reflexivity.
Qed.

(* ===================================================================== *)
(** ** Pattern matcher: the literal scan *)
(* ===================================================================== *)

(** The loop, unfolded once. *)
Lemma literal_scan_step i line lts ptu plen start results :
  literal_scan i line lts ptu plen start results =
  match find lts ptu start with
  | None => results
  | Some pos => literal_scan i line lts ptu plen (pos + 1)
                             (results ++ [literal_record i line plen pos])
  end.
Proof.
  funelim (literal_scan i line lts ptu plen start results);
    match goal with E : find _ _ _ = _ |- _ => rewrite E end; reflexivity.
Qed.

(** The loop only appends records of the scanned line, one for each
    occurrence [find] reported. *)
Lemma literal_scan_hits i line lts ptu plen start results :
  exists hits,
    literal_scan i line lts ptu plen start results
    = results ++ map (literal_record i line plen) hits
    /\ Forall (fun pos => start <= pos <= length lts
                          /\ slice lts pos (pos + length ptu) = ptu) hits.
Proof.
  funelim (literal_scan i line lts ptu plen start results).
  - match goal with IH : exists _, _ |- _ => destruct IH as [hits [Hscan Hall]] end.
    exists (pos :: hits). split.
    + rewrite Hscan, <- app_assoc. reflexivity.
    + pose proof (find_bounds _ _ _ Hfind) as Hb.
      constructor; [split; [exact Hb | now apply find_occurs with start]|].
      eapply Forall_impl; [|exact Hall]. simpl. intros pos' [H1 H2].
      split; [lia | exact H2].
  - exists []. split; [now rewrite app_nil_r | constructor].
Qed.

Lemma literal_lines_hits pattern case_sensitive lines : forall i results,
  exists recs,
    literal_lines pattern case_sensitive i lines results = results ++ recs
    /\ Forall (literal_hit pattern case_sensitive lines) recs.
Proof.
  induction lines as [|line rest IH]; intros i results; simpl.
  - exists []. split; [now rewrite app_nil_r | constructor].
  - unfold literal_line.
    destruct (literal_scan_hits i line
                (if case_sensitive then line else lower line)
                (if case_sensitive then pattern else lower pattern)
                (length pattern) 0 results) as [hits [-> Hhits]].
    destruct (IH (S i) (results ++ map (literal_record i line (length pattern)) hits))
      as [recs [-> Hrecs]].
    exists (map (literal_record i line (length pattern)) hits ++ recs). split.
    + now rewrite app_assoc.
    + apply Forall_app. split.
      * apply Forall_forall. intros r Hr. apply in_map_iff in Hr as [pos [<- Hpos]].
        rewrite Forall_forall in Hhits. destruct (Hhits _ Hpos) as [_ Hocc].
        exists i, line, pos. split; [now left|]. split; [reflexivity | exact Hocc].
      * eapply Forall_impl; [|exact Hrecs].
        intros r [i' [line' [pos [Hin H]]]]. exists i', line', pos.
        split; [now right | exact H].
Qed.

(** [find] returns the lowest occurrence at or after the cursor. *)
Lemma find_at_lowest sub s : forall k p,
  p <= length s -> startswith (skipn p s) sub = true ->
  exists q, find_at s sub k = Some (k + q) /\ q <= p.
Proof.
  induction s as [|c s IH]; intros k p Hp Hocc; cbn [find_at].
  - destruct p; [|simpl in Hp; lia]. cbn [skipn] in Hocc. rewrite Hocc.
    exists 0. split; [now rewrite Nat.add_0_r | lia].
  - destruct (startswith (c :: s) sub) eqn:E.
    + exists 0. split; [now rewrite Nat.add_0_r | lia].
    + destruct p as [|p]; [cbn [skipn] in Hocc; congruence|].
      cbn [length skipn] in Hp, Hocc.
      destruct (IH (S k) p) as [q [Hq Hle]]; [lia | exact Hocc |].
      exists (S q). split; [rewrite Hq; f_equal; lia | lia].
Qed.

Lemma find_lowest s sub start p :
  start <= p <= length s -> startswith (skipn p s) sub = true ->
  exists q, find s sub start = Some q /\ start <= q <= p.
Proof.
  intros Hp Hocc. unfold find.
  replace (length s <? start) with false by (symmetry; apply Nat.ltb_ge; lia).
  destruct (@find_at_lowest sub (skipn start s) start (p - start)) as [q [Hq Hle]].
  - rewrite length_skipn. lia.
  - rewrite skipn_skipn. now replace (p - start + start) with p by lia.
  - exists (start + q). split; [exact Hq | lia].
Qed.

(** The loop records every occurrence at or after the cursor, whether or
    not it overlaps an earlier one. *)
Lemma literal_scan_complete i line lts ptu plen start results p :
  start <= p <= length lts -> startswith (skipn p lts) ptu = true ->
  In (literal_record i line plen p)
     (literal_scan i line lts ptu plen start results).
Proof.
  revert p. funelim (literal_scan i line lts ptu plen start results);
    intros p Hp Hocc;
    destruct (find_lowest _ _ Hp Hocc) as [q [Hq Hle]]; [|congruence].
  rewrite Hfind in Hq. injection Hq as <-.
  destruct (Nat.eq_dec pos p) as [->|Hne].
  - destruct (literal_scan_hits i line line_to_search pattern_to_use pattern_len
                (p + 1) (results ++ [literal_record i line pattern_len p]))
      as [hits [-> _]].
    apply in_or_app. left. apply in_or_app. right. now left.
  - match goal with IH : forall p, _ -> _ -> In _ _ |- _ => apply IH end;
      [lia | exact Hocc].
Qed.

(** With the empty pattern the loop stops after the cursor passed the end
    of the searched line, having recorded every position up to its
    length. *)
Lemma literal_scan_empty_pattern i line lts plen : forall n start results,
  n = S (length lts) - start ->
  literal_scan i line lts [] plen start results
  = results ++ map (literal_record i line plen) (seq start n).
Proof.
  induction n as [|n IH]; intros start results Hn;
    rewrite literal_scan_step, find_empty.
  - replace (length lts <? start) with true
      by (symmetry; apply Nat.ltb_lt; lia).
    simpl. now rewrite app_nil_r.
  - replace (length lts <? start) with false
      by (symmetry; apply Nat.ltb_ge; lia).
    rewrite IH by lia. rewrite <- app_assoc, Nat.add_1_r. reflexivity.
Qed.

Lemma literal_lines_empty_pattern case_sensitive lines : forall i results,
  literal_lines [] case_sensitive i lines results
  = results ++
    flat_map (fun il =>
                map (literal_record (fst il) (snd il) 0)
                    (seq 0 (length (searched_line case_sensitive (snd il)) + 1)))
             (combine (seq i (length lines)) lines).
Proof.
  induction lines as [|line rest IH]; intros i results; simpl.
  - now rewrite app_nil_r.
  - rewrite IH. unfold literal_line.
    match goal with
    | |- context [literal_scan _ _ ?l ?p ?k _ _] =>
        replace p with (@nil char) by (now destruct case_sensitive);
        change k with 0;
        change l with (searched_line case_sensitive line)
    end.
    rewrite (@literal_scan_empty_pattern i line _ 0
               (length (searched_line case_sensitive line) + 1) 0 results)
      by lia.
    now rewrite <- app_assoc.
Qed.

Lemma literal_record_empty i line pos :
  literal_record i line 0 pos =
  {| mr_line := i; mr_position := pos; mr_match := [];
     mr_context := _get_context line pos pos; mr_full_line := line |}.
Proof.
  unfold literal_record. rewrite Nat.add_0_r. unfold slice.
  now rewrite Nat.sub_diag.
Qed.

(** Literal search never raises and does not consult the engine. *)
Lemma search_in_text_literal re text pattern case_sensitive :
  search_in_text re text pattern case_sensitive false
  = Ok (match text with
        | [] => []
        | _ :: _ => literal_lines pattern case_sensitive 1 (split newline text) []
        end).
Proof. destruct text; reflexivity. Qed.

(** The empty pattern over a non-empty text: every line yields one record
    per position of the line that is searched (the line itself when the
    search is case-sensitive, its lower-cased copy otherwise). *)
Lemma search_empty_pattern re text case_sensitive :
  text <> [] ->
  search_in_text re text [] case_sensitive false
  = Ok (empty_pattern_records
          (fun line => length (searched_line case_sensitive line))
          (split newline text)).
Proof.
  intros Htext. rewrite search_in_text_literal.
  destruct text as [|c text]; [congruence|]. f_equal.
  rewrite literal_lines_empty_pattern. simpl app.
  unfold empty_pattern_records, enumerate1.
  apply flat_map_ext. intros il. apply map_ext. intros pos.
  apply literal_record_empty.
Qed.

(** C4. In literal mode a hit at [pos] moves the cursor to [pos + 1], one
    position further and not past the hit, so overlapping occurrences are
    found: the case-insensitive literal search for "aa" in "aaa" returns
    two records, at positions 0 and 1 of line 1. *)
Theorem literal_search_overlapping (re : ReEngine) :
  (forall i line lts ptu plen start results,
      literal_scan i line lts ptu plen start results =
      match find lts ptu start with
      | None => results
      | Some pos => literal_scan i line lts ptu plen (pos + 1)
                                 (results ++ [literal_record i line plen pos])
      end)
  /\ search_in_text re (lit "aaa") (lit "aa") false false
     = Ok [ {| mr_line := 1; mr_position := 0; mr_match := lit "aa";
               mr_context := lit "aaa"; mr_full_line := lit "aaa" |};
            {| mr_line := 1; mr_position := 1; mr_match := lit "aa";
               mr_context := lit "aaa"; mr_full_line := lit "aaa" |} ].
Proof.
  split.
  - intros. apply literal_scan_step.
  - rewrite search_in_text_literal. reflexivity.
Qed.

(** C7. In literal mode the matched text of every record is the slice of
    the source line at the recorded span, [line[pos : pos + len(pattern)]],
    taken from the line as it is and not from its lower-cased copy: the
    case-insensitive search for "ABC" in "xx abc yy" yields one match,
    "abc" at position 3, and the search for "abc" in "xx AbC yy" yields
    "AbC". *)
Theorem literal_match_is_source_slice (re : ReEngine) :
  (forall text pattern case_sensitive,
      exists recs,
        search_in_text re text pattern case_sensitive false = Ok recs
        /\ Forall (fun r => mr_match r
                            = slice (mr_full_line r) (mr_position r)
                                    (mr_position r + length pattern)
                            /\ In (mr_full_line r) (split newline text)) recs)
  /\ search_in_text re (lit "xx abc yy") (lit "ABC") false false
     = Ok [ {| mr_line := 1; mr_position := 3; mr_match := lit "abc";
               mr_context := lit "xx abc yy"; mr_full_line := lit "xx abc yy" |} ]
  /\ search_in_text re (lit "xx AbC yy") (lit "abc") false false
     = Ok [ {| mr_line := 1; mr_position := 3; mr_match := lit "AbC";
               mr_context := lit "xx AbC yy"; mr_full_line := lit "xx AbC yy" |} ].
Proof.
  split; [|split].
  - intros text pattern case_sensitive. rewrite search_in_text_literal.
    destruct text as [|c text].
    + exists []. split; [reflexivity | constructor].
    + destruct (literal_lines_hits pattern case_sensitive
                  (split newline (c :: text)) 1 []) as [recs [E Hrecs]].
      exists recs. split; [now rewrite E|].
      eapply Forall_impl; [|exact Hrecs].
      intros r [i [line [pos [Hin [-> _]]]]]. simpl. auto.
  - rewrite search_in_text_literal. reflexivity.
  - rewrite search_in_text_literal. reflexivity.
Qed.

(** C10. The case-insensitive search of the empty pattern in the one-line
    text U+0130 returns three records, at positions 0, 1 and 2, where a
    line of length 1 has the two positions 0 and 1: the loop runs over the
    lower-cased copy of the line, which has two code points. *)
Theorem empty_pattern_dotted_capital_I (re : ReEngine) :
  search_in_text re [304%N] [] false false
  = Ok (empty_pattern_records (fun _ => 2) [[304%N]])
  /\ search_in_text re [304%N] [] false false
     <> Ok (empty_pattern_records (@length char) (split newline [304%N])).
Proof.
  split.
  - rewrite search_in_text_literal. reflexivity.
  - rewrite search_in_text_literal. vm_compute. discriminate.
Qed.

(** C5, as stated, fails: [re.compile] rejects "a{99999999999}" with
    [OverflowError], which the handler for [re.error] does not catch, so
    the search of a non-empty text raises. *)
Lemma search_in_text_overflow_raises :
  search_in_text sample_engine (lit "anything") overflow_pattern false true
  = Raise (other_exception (lit "the repetition number is too large"))
  /\ ~ compile_failure_claim sample_engine (lit "anything") overflow_pattern false.
Proof.
  split; [reflexivity|].
  intros Hclaim. unfold compile_failure_claim in Hclaim.
  assert (H : search_in_text sample_engine (lit "anything") overflow_pattern
                             false true = Ok [])
    by (apply Hclaim; eexists; reflexivity).
  discriminate H.
Qed.

(** C5, amended. When [re.compile] rejects the pattern with [re.error],
    the regex search returns the empty list for every text and does not
    raise.  When the compilation fails with another exception, the search
    raises that exception for every non-empty text, and returns the empty
    list for the empty text, which is never compiled against. *)
Theorem search_in_text_compile_failure (re : ReEngine)
    (text pattern : str) (case_sensitive : bool) (e : exn) :
  re_compile re pattern (if case_sensitive then NOFLAG else IGNORECASE) = Raise e ->
  search_in_text re text pattern case_sensitive true
  = match e, text with
    | re_error _, _ => Ok []
    | other_exception _, [] => Ok []
    | other_exception _, _ :: _ => Raise e
    end.
Proof.
  intros Hcompile. unfold search_in_text.
  destruct text as [|c text]; [now destruct e|].
  rewrite Hcompile. now destruct e.
Qed.

Lemma search_in_text_compile_failure_witness :
  search_in_text sample_engine (lit "anything") (lit "(unclosed") false true
  = Ok []
  /\ search_in_text sample_engine (lit "anything") overflow_pattern false true
     = Raise (other_exception (lit "the repetition number is too large")).
Proof.
  split.
  - apply (@search_in_text_compile_failure sample_engine (lit "anything")
             (lit "(unclosed") false
             (re_error (lit "missing ), unterminated subpattern at position 0"))).
    reflexivity.
  - apply (@search_in_text_compile_failure sample_engine (lit "anything")
             overflow_pattern false
             (other_exception (lit "the repetition number is too large"))).
    reflexivity.
Defined.

(* ===================================================================== *)
(** ** Pattern matcher: the context window *)
(* ===================================================================== *)

Lemma firstn_plus {A : Type} (n m : nat) (l : list A) :
  firstn (n + m) l = firstn n l ++ firstn m (skipn n l).
Proof.
  revert l; induction n as [|n IH]; intros l; [reflexivity|].
  destruct l as [|x l]; simpl.
  - now rewrite firstn_nil.
  - now rewrite IH.
Qed.

Lemma slice_split (s : str) (a b c : nat) :
  a <= b <= c -> slice s a c = slice s a b ++ slice s b c.
Proof.
  intros H. unfold slice.
  replace (c - a) with ((b - a) + (c - b)) by lia.
  rewrite firstn_plus, skipn_skipn.
  now replace (b - a + a) with b by lia.
Qed.

Lemma slice_clip (s : str) (a b : nat) :
  slice s a (Nat.min (length s) b) = slice s a b.
Proof.
  unfold slice.
  destruct (Nat.le_ge_cases b (length s)) as [H|H].
  - now rewrite Nat.min_r.
  - rewrite Nat.min_l by exact H.
    rewrite !firstn_all2; try reflexivity; rewrite length_skipn; lia.
Qed.

Lemma length_slice (s : str) (a b : nat) :
  length (slice s a b) = Nat.min (b - a) (length s - a).
Proof. unfold slice. now rewrite length_firstn, length_skipn. Qed.

Lemma startswith_prefix (s t : str) : startswith (s ++ t) s = true.
Proof. apply startswith_app. now exists t. Qed.

Lemma endswith_suffix (s t : str) : endswith (s ++ t) t = true.
Proof. unfold endswith. rewrite rev_app_distr. apply startswith_prefix. Qed.

(** The context as one expression. *)
Lemma _get_context_eq (line : str) (start end_ : nat) :
  _get_context line start end_
  = (if 50 <? start then ellipsis else [])
      ++ slice line (start - 50) (end_ + 50)
      ++ (if end_ + 50 <? length line then ellipsis else []).
Proof.
  unfold _get_context, _get_context_chars.
  rewrite Nat.max_0_l, slice_clip.
  replace (0 <? start - 50) with (50 <? start).
  2:{ destruct (50 <? start) eqn:E; symmetry.
      - apply Nat.ltb_lt in E. apply Nat.ltb_lt. lia.
      - apply Nat.ltb_ge in E. apply Nat.ltb_ge. lia. }
  replace (Nat.min (length line) (end_ + 50) <? length line)
    with (end_ + 50 <? length line).
  2:{ destruct (end_ + 50 <? length line) eqn:E; symmetry.
      - apply Nat.ltb_lt in E. apply Nat.ltb_lt. lia.
      - apply Nat.ltb_ge in E. apply Nat.ltb_ge. lia. }
  destruct (50 <? start), (end_ + 50 <? length line); simpl;
    rewrite ?app_nil_r, <- ?app_assoc; reflexivity.
Qed.

(** C8, as stated, fails: in a line of 100 "b" and 100 "a" the match of
    60 "a" starts at offset 100 and ends at 160, fewer than 50 characters
    before the end of the line, so nothing is cut after it and the
    context does not end with "...". *)
Lemma context_no_trailing_ellipsis :
  (exists r rest,
      search_in_text (toy_engine 1000) line_b100_a100 (repeat 97%N 60) true false
      = Ok (r :: rest)
      /\ mr_position r = 100
      /\ mr_context r = _get_context line_b100_a100 100 160)
  /\ ~ context_claim_at_100 line_b100_a100 100 160.
Proof.
  split.
  - rewrite search_in_text_literal. eexists. eexists.
    split; [vm_compute; reflexivity | split; reflexivity].
  - intros H. destruct H as [_ [H _]]; [reflexivity | reflexivity | simpl; lia |].
    vm_compute in H. discriminate.
Qed.

(** C8, amended. For a match spanning [start, end_) of a line the context
    is the (at most) 50 characters before the match, the match and the (at
    most) 50 characters after it, with "..." in front exactly when more
    than 50 characters precede the match and "..." behind exactly when
    more than 50 follow it; it is at most [100 + len(match) + 6] long, and
    for a match at offset 100 of a 200-character line that ends before
    offset 150 it starts and ends with "...". *)
Theorem get_context_window (line : str) (start end_ : nat) :
  start <= end_ <= length line ->
  _get_context line start end_
  = (if 50 <? start then ellipsis else [])
      ++ slice line (start - 50) start
      ++ slice line start end_
      ++ slice line end_ (end_ + 50)
      ++ (if 50 <? length line - end_ then ellipsis else [])
  /\ length (slice line (start - 50) start) = Nat.min 50 start
  /\ length (slice line end_ (end_ + 50)) = Nat.min 50 (length line - end_)
  /\ length (_get_context line start end_) <= 100 + (end_ - start) + 6
  /\ (length line = 200 -> start = 100 -> end_ < 150 ->
      startswith (_get_context line start end_) ellipsis = true
      /\ endswith (_get_context line start end_) ellipsis = true).
Proof.
  intros Hspan.
  assert (Hctx : _get_context line start end_
                 = (if 50 <? start then ellipsis else [])
                     ++ slice line (start - 50) start
                     ++ slice line start end_
                     ++ slice line end_ (end_ + 50)
                     ++ (if 50 <? length line - end_ then ellipsis else [])).
  { rewrite _get_context_eq.
    rewrite (@slice_split line (start - 50) start (end_ + 50)) by lia.
    rewrite (@slice_split line start end_ (end_ + 50)) by lia.
    replace (50 <? length line - end_) with (end_ + 50 <? length line).
    2:{ destruct (end_ + 50 <? length line) eqn:E; symmetry.
        - apply Nat.ltb_lt in E. apply Nat.ltb_lt. lia.
        - apply Nat.ltb_ge in E. apply Nat.ltb_ge. lia. }
    now rewrite <- !app_assoc. }
  split; [exact Hctx|].
  split; [rewrite length_slice; lia|].
  split; [rewrite length_slice; lia|].
  split.
  - rewrite Hctx, !length_app, !length_slice.
    assert (length ellipsis = 3) by reflexivity.
    destruct (50 <? start), (50 <? length line - end_); simpl length; lia.
  - intros Hlen -> Hend. rewrite Hctx.
    replace (50 <? 100) with true by reflexivity.
    replace (50 <? length line - end_) with true
      by (symmetry; apply Nat.ltb_lt; lia).
    split; [apply startswith_prefix|].
    rewrite !app_assoc. apply endswith_suffix.
Qed.

Lemma get_context_window_witness :
  startswith (_get_context line_b100_a100 100 101) ellipsis = true
  /\ endswith (_get_context line_b100_a100 100 101) ellipsis = true
  /\ length (_get_context line_b100_a100 100 101) <= 100 + (101 - 100) + 6.
Proof.
  assert (Hspan : 100 <= 101 <= length line_b100_a100) by (vm_compute; lia).
  destruct (@get_context_window line_b100_a100 100 101 Hspan) as [_ [_ [_ [Hlen Hdots]]]].
  destruct Hdots as [H1 H2]; [reflexivity | reflexivity | lia |].
  split; [exact H1 | split; [exact H2 | exact Hlen]].
Defined.

(* ===================================================================== *)
(** ** Content decoder *)
(* ===================================================================== *)

Lemma keys_dict_set k v d x :
  In x (keys (dict_set k v d)) <-> x = k \/ In x (keys d).
Proof.
  induction d as [|[k' v'] d IH]; simpl.
  - intuition congruence.
  - destruct (eqb k' k) eqn:E; simpl.
    + apply eqb_eq in E. subst k'. intuition congruence.
    + unfold keys in IH. rewrite IH. intuition congruence.
Qed.

Lemma zip_loop_keys infos : forall content name,
  In name (keys (zip_loop infos content)) <->
  In name (keys content)
  \/ exists fi, In fi infos /\ zi_filename fi = name /\ zip_entry_kept fi = true.
Proof.
  induction infos as [|fi rest IH]; intros content name;
    cbn [zip_loop In]; cbv zeta.
  - split; [auto | intros [H | [fi [[] _]]]; exact H].
  - assert (Hskip : zip_entry_kept fi = false ->
              (In name (keys (zip_loop rest content)) <->
               In name (keys content)
               \/ exists fi0, (fi = fi0 \/ In fi0 rest)
                              /\ zi_filename fi0 = name /\ zip_entry_kept fi0 = true)).
    { intros Hno. rewrite IH. split.
      - intros [H | [fi0 [H1 H2]]]; [now left | right; exists fi0; auto].
      - intros [H | [fi0 [[<- | H1] [H2 H3]]]];
          [now left | congruence | right; exists fi0; auto]. }
    unfold zip_entry_kept in Hskip at 1.
    destruct (zi_is_dir fi) eqn:Edir; simpl negb; cbv iota; [now apply Hskip|].
    destruct (mem (entry_ext (zi_filename fi)) archive_extensions) eqn:Eext;
      [|now apply Hskip].
    destruct (zi_text fi) as [text|] eqn:Etext; [|now apply Hskip].
    rewrite IH, keys_dict_set. split.
    + intros [[-> | H] | [fi0 [H1 H2]]].
      * right. exists fi. split; [now left|]. split; [reflexivity|].
        unfold zip_entry_kept. now rewrite Edir, Eext, Etext.
      * now left.
      * right. exists fi0. auto.
    + intros [H | [fi0 [[<- | H1] [H2 H3]]]].
      * left. now right.
      * left. left. now symmetry.
      * right. exists fi0. auto.
Qed.

Lemma tar_loop_keys members : forall content name,
  In name (keys (tar_loop members content)) <->
  In name (keys content)
  \/ exists m, In m members /\ ti_name m = name /\ tar_member_kept m = true.
Proof.
  induction members as [|m rest IH]; intros content name;
    cbn [tar_loop In]; cbv zeta.
  - split; [auto | intros [H | [m [[] _]]]; exact H].
  - assert (Hskip : tar_member_kept m = false ->
              (In name (keys (tar_loop rest content)) <->
               In name (keys content)
               \/ exists m0, (m = m0 \/ In m0 rest)
                             /\ ti_name m0 = name /\ tar_member_kept m0 = true)).
    { intros Hno. rewrite IH. split.
      - intros [H | [m0 [H1 H2]]]; [now left | right; exists m0; auto].
      - intros [H | [m0 [[<- | H1] [H2 H3]]]];
          [now left | congruence | right; exists m0; auto]. }
    unfold tar_member_kept in Hskip at 1.
    destruct (isfile (ti_type m)) eqn:Efile; cbv iota; [|now apply Hskip].
    destruct (mem (entry_ext (ti_name m)) archive_extensions) eqn:Eext;
      [|now apply Hskip].
    destruct (ti_text m) as [text|] eqn:Etext; [|now apply Hskip].
    rewrite IH, keys_dict_set. split.
    + intros [[-> | H] | [m0 [H1 H2]]].
      * right. exists m. split; [now left|]. split; [reflexivity|].
        unfold tar_member_kept. now rewrite Efile, Eext, Etext.
      * now left.
      * right. exists m0. auto.
    + intros [H | [m0 [[<- | H1] [H2 H3]]]].
      * left. now right.
      * left. left. now symmetry.
      * right. exists m0. auto.
Qed.

(** C3, as stated, fails for tar archives: a symbolic link "link.txt" is
    not a directory, has a listed extension and can be read through
    [extractfile], yet the reader skips it. *)
Lemma tar_link_not_decoded :
  keys (_read_tar_file world_with_link (lit "a.tar")) = [lit "real.txt"]
  /\ ~ tar_keys_claim world_with_link (lit "a.tar").
Proof.
  split; [reflexivity|].
  intros Hclaim.
  destruct (Hclaim (lit "link.txt")) as [_ Hin].
  assert (H : In (lit "link.txt") (keys (_read_tar_file world_with_link (lit "a.tar")))).
  { apply Hin. eexists. eexists.
    split; [reflexivity|]. split; [right; left; reflexivity|].
    split; reflexivity. }
  vm_compute in H. destruct H as [H | []]. discriminate.
Qed.

(** C3, amended. The keys of a decoded zip archive are the names of its
    entries that are not directories, have an extension of the inner list
    and can be read; the keys of a decoded tar or tar.gz archive are the
    names of its regular-file members (neither directories nor links,
    devices or FIFOs) with an extension of the inner list that can be
    read.  A name whose extension is not in the list, such as ".bin",
    ".ini" or ".cfg", is never a key. *)
Theorem archive_keys (w : World) (file_path name : str) :
  (In name (keys (_read_zip_file w file_path)) <->
   exists infos fi,
     ZipFile w file_path = Some infos /\ In fi infos /\ zi_filename fi = name
     /\ zi_is_dir fi = false
     /\ mem (entry_ext name) archive_extensions = true
     /\ zi_text fi <> None)
  /\ (In name (keys (_read_tar_file w file_path)) <->
      exists members m,
        tarfile_open w file_path (tar_mode_of file_path) = Some members
        /\ In m members /\ ti_name m = name
        /\ isfile (ti_type m) = true
        /\ mem (entry_ext name) archive_extensions = true
        /\ ti_text m <> None)
  /\ (mem (entry_ext name) archive_extensions = false ->
      ~ In name (keys (_read_zip_file w file_path))
      /\ ~ In name (keys (_read_tar_file w file_path)))
  /\ mem (entry_ext (lit "data.bin")) archive_extensions = false
  /\ mem (entry_ext (lit "conf/settings.ini")) archive_extensions = false
  /\ mem (entry_ext (lit "app.cfg")) archive_extensions = false.
Proof.
  assert (Hzip : In name (keys (_read_zip_file w file_path)) <->
                 exists infos fi,
                   ZipFile w file_path = Some infos /\ In fi infos
                   /\ zi_filename fi = name /\ zi_is_dir fi = false
                   /\ mem (entry_ext name) archive_extensions = true
                   /\ zi_text fi <> None).
  { unfold _read_zip_file. destruct (ZipFile w file_path) as [infos|].
    - rewrite zip_loop_keys. split.
      + intros [[] | [fi [Hin [Hname Hkept]]]].
        exists infos, fi. unfold zip_entry_kept in Hkept.
        apply andb_true_iff in Hkept as [Hkept Htext].
        apply andb_true_iff in Hkept as [Hdir Hext].
        apply negb_true_iff in Hdir. rewrite Hname in Hext.
        repeat split; auto. destruct (zi_text fi); [discriminate | discriminate].
      + intros [infos' [fi [[= <-] [Hin [Hname [Hdir [Hext Htext]]]]]]].
        right. exists fi. repeat split; auto.
        unfold zip_entry_kept. rewrite Hdir, Hname, Hext.
        destruct (zi_text fi); [reflexivity | congruence].
    - split; [intros [] | intros [infos [fi [[=] _]]]]. }
  assert (Htar : In name (keys (_read_tar_file w file_path)) <->
                 exists members m,
                   tarfile_open w file_path (tar_mode_of file_path) = Some members
                   /\ In m members /\ ti_name m = name
                   /\ isfile (ti_type m) = true
                   /\ mem (entry_ext name) archive_extensions = true
                   /\ ti_text m <> None).
  { unfold _read_tar_file. fold (tar_mode_of file_path).
    destruct (tarfile_open w file_path (tar_mode_of file_path)) as [members|].
    - rewrite tar_loop_keys. split.
      + intros [[] | [m [Hin [Hname Hkept]]]].
        exists members, m. unfold tar_member_kept in Hkept.
        apply andb_true_iff in Hkept as [Hkept Htext].
        apply andb_true_iff in Hkept as [Hfile Hext].
        rewrite Hname in Hext.
        repeat split; auto. destruct (ti_text m); [discriminate | discriminate].
      + intros [members' [m [[= <-] [Hin [Hname [Hfile [Hext Htext]]]]]]].
        right. exists m. repeat split; auto.
        unfold tar_member_kept. rewrite Hfile, Hname, Hext.
        destruct (ti_text m); [reflexivity | congruence].
    - split; [intros [] | intros [members [m [[=] _]]]]. }
  split; [exact Hzip|]. split; [exact Htar|].
  split; [|repeat split; reflexivity].
  intros Hext. split.
  - intros H. apply Hzip in H as [_ [_ [_ [_ [_ [_ [H _]]]]]]]. congruence.
  - intros H. apply Htar in H as [_ [_ [_ [_ [_ [_ [H _]]]]]]]. congruence.
Qed.

Lemma archive_keys_witness :
  ~ In (lit "data.bin") (keys (_read_zip_file world_with_link (lit "a.zip")))
  /\ ~ In (lit "data.bin") (keys (_read_tar_file world_with_link (lit "a.tar"))).
Proof.
  destruct (@archive_keys world_with_link (lit "a.zip") (lit "data.bin"))
    as [_ [_ [Hzip _]]].
  destruct (@archive_keys world_with_link (lit "a.tar") (lit "data.bin"))
    as [_ [_ [Htar _]]].
  split.
  - apply Hzip. reflexivity.
  - apply Htar. reflexivity.
Defined.

(** C6. Plain-text decoding returns the UTF-8 text when the file decodes
    as UTF-8; when that attempt fails to decode it returns the
    Windows-1251 text, or failing that the Latin-1 text, or the empty
    string when all three attempts fail; when the first attempt fails in
    another way it returns the empty string.  It returns in every case. *)
Theorem read_text_fallback (w : World) (file_path : str) :
  (forall text, open_read w file_path utf_8 = ReadText text ->
                _read_text_file w file_path = text)
  /\ (open_read w file_path utf_8 = ReadFailure ->
      _read_text_file w file_path = [])
  /\ (open_read w file_path utf_8 = UnicodeDecodeError ->
      (forall text, open_read w file_path cp1251 = ReadText text ->
                    _read_text_file w file_path = text)
      /\ ((forall text, open_read w file_path cp1251 <> ReadText text) ->
          (forall text, open_read w file_path latin_1 = ReadText text ->
                        _read_text_file w file_path = text)
          /\ ((forall text, open_read w file_path latin_1 <> ReadText text) ->
              _read_text_file w file_path = []))).
Proof.
  unfold _read_text_file.
  split; [intros text ->; reflexivity|].
  split; [intros ->; reflexivity|].
  intros ->. split; [intros text ->; reflexivity|].
  intros Hcp. destruct (open_read w file_path cp1251) as [t| |];
    [now elim (Hcp t) | |].
  - split; [intros text ->; reflexivity|].
    intros Hl. destruct (open_read w file_path latin_1) as [t| |];
      [now elim (Hl t) | reflexivity | reflexivity].
  - split; [intros text ->; reflexivity|].
    intros Hl. destruct (open_read w file_path latin_1) as [t| |];
      [now elim (Hl t) | reflexivity | reflexivity].
Qed.

Lemma read_text_fallback_witness :
  _read_text_file world_latin_1 (lit "notes.txt") = [152%N].
Proof.
  destruct (@read_text_fallback world_latin_1 (lit "notes.txt")) as [_ [_ H]].
  destruct H as [_ H]; [reflexivity|].
  destruct H as [H _]; [intros text; discriminate|].
  apply H. reflexivity.
Defined.

(* ===================================================================== *)
(** ** File search orchestrator *)
(* ===================================================================== *)

Section OrchestratorFacts.

Variable re : ReEngine.
Variable w : World.
Variables (pattern : str) (case_sensitive regex : bool).

Lemma archive_loop_inv (items : dict) : forall r,
  archive_inv r ->
  archive_inv (fst (archive_loop re items pattern case_sensitive regex r)).
Proof.
  induction items as [|[filename text] rest IH]; intros r Hinv; simpl.
  - exact Hinv.
  - destruct (truthy text); [|now apply IH].
    destruct (search_in_text re text pattern case_sensitive regex)
      as [file_results|e]; [|exact Hinv].
    destruct file_results as [|m ms]; simpl truthy; cbv iota; [now apply IH|].
    apply IH. destruct Hinv as [Hm [Ha [He [Hc Hall]]]].
    unfold archive_inv; simpl. repeat split; auto.
    + rewrite map_app, list_sum_app, Hc. simpl. lia.
    + apply Forall_app. split; [exact Hall|].
      constructor; [simpl; split; [reflexivity | lia] | constructor].
Qed.

(** When an exception leaves the loop, the dictionary is the one the
    entries before the failing entry produced. *)
Lemma archive_loop_raise (items : dict) : forall r r' e,
  archive_loop re items pattern case_sensitive regex r = (r', Some e) ->
  exists before name text after,
    items = before ++ (name, text) :: after
    /\ search_in_text re text pattern case_sensitive regex = Raise e
    /\ archive_loop re before pattern case_sensitive regex r = (r', None).
Proof.
  induction items as [|[filename text] rest IH]; intros r r' e; simpl.
  - discriminate.
  - assert (Hnext : forall r1,
               archive_loop re rest pattern case_sensitive regex r1 = (r', Some e) ->
               archive_loop re [(filename, text)] pattern case_sensitive regex r
               = (r1, None) ->
               exists before name text0 after,
                 (filename, text) :: rest = before ++ (name, text0) :: after
                 /\ search_in_text re text0 pattern case_sensitive regex = Raise e
                 /\ archive_loop re before pattern case_sensitive regex r = (r', None)).
    { intros r1 Hrest Hone.
      destruct (IH _ _ _ Hrest) as [before [name [text0 [after [-> [Hs Hb]]]]]].
      exists ((filename, text) :: before), name, text0, after.
      split; [reflexivity|]. split; [exact Hs|].
      simpl in Hone |- *. destruct (truthy text).
      - destruct (search_in_text re text pattern case_sensitive regex)
          as [file_results|e0]; [|discriminate].
        destruct (truthy file_results); injection Hone as <-; exact Hb.
      - injection Hone as <-. exact Hb. }
    destruct (truthy text) eqn:Etext.
    + destruct (search_in_text re text pattern case_sensitive regex)
        as [file_results|e0] eqn:Esearch.
      * destruct (truthy file_results) eqn:Eres; intros H;
          apply (Hnext _ H); simpl; rewrite Etext, Esearch, Eres; reflexivity.
      * intros [= <- <-]. exists [], filename, text, rest.
        split; [reflexivity|]. split; [exact Esearch | reflexivity].
    + intros H. apply (Hnext _ H). simpl. now rewrite Etext.
Qed.

Lemma archive_inv_start (file_path : str) :
  archive_inv (set_is_archive true (new_results file_path)).
Proof. unfold archive_inv; simpl. repeat split; auto. Qed.

End OrchestratorFacts.

(** The result of [search_in_file] in general, also for an engine whose
    matcher raises: when the search ends without an exception the result
    has no error; when an exception ends it, the error field holds its
    text and [matches] is empty; for a plain file [archive_contents] is
    then empty and [match_count] is 0, and for an archive they are what
    the entries before the failing entry contributed. *)
Lemma search_in_file_error (re : ReEngine) (w : World) (file_path pattern : str)
    (case_sensitive regex : bool) :
  let r := search_in_file re w file_path pattern case_sensitive regex in
  match search_body re w file_path pattern case_sensitive regex
                    (new_results file_path) with
  | (r0, None) => r = r0 /\ fr_error r = None
  | (_, Some e) =>
      fr_error r = Some (exn_str e) /\ fr_matches r = []
      /\ match read_file w file_path with
         | Text _ =>
             fr_is_archive r = false /\ fr_archive_contents r = []
             /\ fr_match_count r = 0
         | Archive content =>
             fr_is_archive r = true
             /\ exists before name text after r1,
                 content = before ++ (name, text) :: after
                 /\ search_in_text re text pattern case_sensitive regex = Raise e
                 /\ archive_loop re before pattern case_sensitive regex
                                 (set_is_archive true (new_results file_path))
                    = (r1, None)
                 /\ fr_archive_contents r = fr_archive_contents r1
                 /\ fr_match_count r = fr_match_count r1
         end
  end.
Proof.
  unfold search_in_file, search_body.
  destruct (read_file w file_path) as [text|content].
  - destruct (search_in_text re text pattern case_sensitive regex)
      as [file_results|e]; simpl.
    + split; reflexivity.
    + repeat split; reflexivity.
  - pose proof (@archive_loop_inv re pattern case_sensitive regex content _
                  (archive_inv_start file_path)) as Hinv.
    destruct (archive_loop re content pattern case_sensitive regex
                (set_is_archive true (new_results file_path))) as [r' [e|]] eqn:Eloop;
      simpl in Hinv; destruct Hinv as [Hm [Ha [He _]]].
    + simpl. split; [reflexivity|]. split; [exact Hm|]. split; [exact Ha|].
      destruct (archive_loop_raise _ _ _ _ _ _ Eloop)
        as [before [name [text [after [Hc [Hs Hb]]]]]].
      exists before, name, text, after, r'. repeat split; auto.
    + split; [reflexivity | exact He].
Qed.

Lemma regex_lines_total (re : ReEngine) (rx : re_pattern re) (lines : list str) :
  (forall rx line, exists spans, re_finditer re rx line = Ok spans) ->
  forall i results, exists recs, regex_lines re rx i lines results = Ok recs.
Proof.
  intros Htotal. induction lines as [|line rest IH]; intros i results; simpl.
  - now exists results.
  - destruct (Htotal rx line) as [spans ->]. simpl. apply IH.
Qed.

(** When the matcher does not raise, an exception of the search comes from
    the compilation and so strikes every non-empty text alike. *)
Lemma search_raises_for_every_text (re : ReEngine) (text pattern : str)
    (case_sensitive regex : bool) (e : exn) :
  (forall rx line, exists spans, re_finditer re rx line = Ok spans) ->
  search_in_text re text pattern case_sensitive regex = Raise e ->
  forall c t, search_in_text re (c :: t) pattern case_sensitive regex = Raise e.
Proof.
  intros Htotal. unfold search_in_text.
  destruct text as [|c0 text]; [discriminate|].
  destruct regex; [|discriminate].
  destruct (re_compile re pattern (if case_sensitive then NOFLAG else IGNORECASE))
    as [rx|[msg|msg]]; cbn [bind].
  - destruct (@regex_lines_total re rx (split newline (c0 :: text)) Htotal 1 [])
      as [recs ->]. discriminate.
  - discriminate.
  - intros [= <-] c t. reflexivity.
Qed.

Lemma archive_loop_stops_at_first_text (re : ReEngine) (pattern : str)
    (case_sensitive regex : bool) (e : exn) (items : dict) :
  (forall c t, search_in_text re (c :: t) pattern case_sensitive regex = Raise e) ->
  forall r r',
    archive_loop re items pattern case_sensitive regex r = (r', None) -> r' = r.
Proof.
  intros Hraise. induction items as [|[filename text] items IH]; intros r r'; simpl.
  - now intros [= <-].
  - destruct text as [|c t]; simpl truthy; cbv iota; [apply IH|].
    rewrite Hraise. discriminate.
Qed.

(** C1. [search_in_file] returns a result for every path and every
    pattern.  When the search ends without an exception the result has no
    error field; when an exception occurs it is caught, its text is
    recorded in the error field, and [matches] and [archive_contents] are
    empty and [match_count] is 0.  (The matcher of a compiled pattern is
    taken not to raise; the exceptions of the search are then those of
    the compilation, which strike before anything is recorded.) *)
Theorem search_in_file_error_defaults (re : ReEngine) (w : World)
    (file_path pattern : str) (case_sensitive regex : bool) :
  (forall rx line, exists spans, re_finditer re rx line = Ok spans) ->
  let r := search_in_file re w file_path pattern case_sensitive regex in
  match search_body re w file_path pattern case_sensitive regex
                    (new_results file_path) with
  | (_, None) => fr_error r = None
  | (_, Some e) =>
      fr_error r = Some (exn_str e) /\ fr_matches r = []
      /\ fr_archive_contents r = [] /\ fr_match_count r = 0
  end.
Proof.
  intros Htotal. unfold search_in_file, search_body.
  destruct (read_file w file_path) as [text|content].
  - destruct (search_in_text re text pattern case_sensitive regex)
      as [file_results|e]; simpl; repeat split; reflexivity.
  - pose proof (@archive_loop_inv re pattern case_sensitive regex content _
                  (archive_inv_start file_path)) as Hinv.
    destruct (archive_loop re content pattern case_sensitive regex
                (set_is_archive true (new_results file_path))) as [r' [e|]] eqn:Eloop;
      simpl in Hinv; destruct Hinv as [Hm [_ [He _]]]; [|exact He].
    destruct (archive_loop_raise _ _ _ _ _ _ Eloop)
      as [before [name [text [after [_ [Hs Hb]]]]]].
    pose proof (@search_raises_for_every_text re text pattern case_sensitive
                  regex e Htotal Hs) as Hall.
    apply (@archive_loop_stops_at_first_text re pattern case_sensitive regex e
             before Hall) in Hb. subst r'.
    simpl. repeat split; reflexivity.
Qed.

Lemma search_in_file_error_defaults_witness :
  let r := search_in_file sample_engine world_two_entries (lit "logs.zip")
                          overflow_pattern false true in
  fr_error r = Some (lit "the repetition number is too large")
  /\ fr_matches r = [] /\ fr_archive_contents r = [] /\ fr_match_count r = 0.
Proof.
  assert (Htotal : forall rx line,
             exists spans, re_finditer sample_engine rx line = Ok spans).
  { intros rx line. simpl. destruct (snd rx); eexists; reflexivity. }
  pose proof (@search_in_file_error_defaults sample_engine world_two_entries
                (lit "logs.zip") overflow_pattern false true Htotal) as H.
  assert (E : search_body sample_engine world_two_entries (lit "logs.zip")
                          overflow_pattern false true (new_results (lit "logs.zip"))
              = (set_is_archive true (new_results (lit "logs.zip")),
                 Some (other_exception (lit "the repetition number is too large"))))
    by reflexivity.
  rewrite E in H. exact H.
Defined.

(** C9. In every result of [search_in_file], [match_count] is the sum of
    the counts of [archive_contents] and [matches] is empty when
    [is_archive] holds, [match_count] is the length of [matches] and
    [archive_contents] is empty otherwise; every element of
    [archive_contents] has a count equal to the length of its matches and
    greater than 0. *)
Theorem search_in_file_counts (re : ReEngine) (w : World) (file_path pattern : str)
    (case_sensitive regex : bool) :
  let r := search_in_file re w file_path pattern case_sensitive regex in
  (if fr_is_archive r
   then fr_match_count r = list_sum (map ae_match_count (fr_archive_contents r))
        /\ fr_matches r = []
   else fr_match_count r = length (fr_matches r)
        /\ fr_archive_contents r = [])
  /\ Forall (fun e => ae_match_count e = length (ae_matches e)
                      /\ 0 < ae_match_count e)
            (fr_archive_contents r).
Proof.
  unfold search_in_file, search_body.
  destruct (read_file w file_path) as [text|content].
  - destruct (search_in_text re text pattern case_sensitive regex)
      as [file_results|e]; simpl; repeat split; auto.
  - pose proof (@archive_loop_inv re pattern case_sensitive regex content _
                  (archive_inv_start file_path)) as Hinv.
    destruct (archive_loop re content pattern case_sensitive regex
                (set_is_archive true (new_results file_path))) as [r' [e|]];
      simpl in Hinv; destruct Hinv as [Hm [Ha [He [Hc Hall]]]]; simpl;
      rewrite Ha; repeat split; auto.
Qed.

(* ===================================================================== *)
(** ** Directory walker *)
(* ===================================================================== *)

Section WalkerFacts.

Variable re : ReEngine.
Variable w : World.
Variables (pattern : str) (case_sensitive regex : bool).

Lemma walk_loop_result (files : list str) : forall st,
  walk_loop re w files pattern case_sensitive regex st
  = match is_file_error w files with
    | Some e => Raise e
    | None =>
        Ok {| all_results :=
                all_results st
                ++ filter has_match
                     (map (fun p => search_in_file re w p pattern case_sensitive regex)
                          (filter (searchable w) files));
              processed := processed st + length (filter (regular_file w) files);
              searched := searched st ++ filter (searchable w) files |}
    end.
Proof.
  induction files as [|p rest IH]; intros st; cbn [walk_loop is_file_error filter].
  - cbn [map filter length]. rewrite !app_nil_r, Nat.add_0_r. now destruct st.
  - unfold walk_step. fold (walk_ext p).
    assert (Hs : searchable w p
                 = regular_file w p
                   && (supported w (walk_ext p) || eqb (walk_ext p) []))
      by reflexivity.
    assert (Hr : regular_file w p
                 = match is_file w p with Ok b => b | Raise _ => false end)
      by reflexivity.
    destruct (is_file w p) as [[|]|e]; cbn [bind]; [| |reflexivity].
    + rewrite Hs, Hr. cbn [andb].
      destruct (supported w (walk_ext p) || eqb (walk_ext p) []);
        cbv beta iota zeta; cbn [bind];
        rewrite IH; destruct (is_file_error w rest); try reflexivity;
        cbn [all_results processed searched filter map length].
      * change (0 <? fr_match_count
                       (search_in_file re w p pattern case_sensitive regex))
          with (has_match (search_in_file re w p pattern case_sensitive regex)).
        destruct (has_match (search_in_file re w p pattern case_sensitive regex));
          rewrite <- ?app_assoc; cbn [app]; do 2 f_equal; lia.
      * do 2 f_equal; lia.
    + rewrite Hs, Hr. cbn [andb]. rewrite IH. reflexivity.
Qed.

End WalkerFacts.



(* ===================================================================== *)
(** ** Case folding and the recorded span *)
(* ===================================================================== *)

Lemma split_chars sep s : forall line x,
  In line (split sep s) -> In x line -> In x s.
Proof.
  induction s as [|d s IH]; intros line x; simpl.
  - intros [<- | []] [].
  - destruct (char_eqb d sep).
    + intros [<- | H] Hx; [destruct Hx | right; eapply IH; eauto].
    + destruct (split sep s) as [|l ls] eqn:E.
      * intros [<- | []] [<- | []]. now left.
      * intros [<- | H] Hx.
        -- destruct Hx as [<- | Hx]; [now left | right].
           apply (IH l x); [now left | exact Hx].
        -- right. apply (IH line x); [now right | exact Hx].
Qed.

(** With U+0130 in the line the recorded span is off by one: the search
    for "ABC" in the line U+0130 "abc" records position 2 and the matched
    text "bc". *)
Example literal_match_shifted :
  search_in_text (toy_engine 100) (304%N :: lit "abc") (lit "ABC") false false
  = Ok [ {| mr_line := 1; mr_position := 2; mr_match := lit "bc";
            mr_context := 304%N :: lit "abc";
            mr_full_line := 304%N :: lit "abc" |} ].
Proof. reflexivity. Qed.

(* ===================================================================== *)
(** ** Examples *)
(* ===================================================================== *)

Example find_empty_at_end : find (lit "aaa") (lit "") 3 = Some 3.
Proof. reflexivity. Qed.

Example find_empty_past_end : find (lit "aaa") (lit "") 4 = None.
Proof. reflexivity. Qed.

Example splitext_examples :
  splitext (lit "dir.d/notes.TXT") = (lit "dir.d/notes", lit ".TXT")
  /\ splitext (lit "dir.d/.hidden") = (lit "dir.d/.hidden", lit "")
  /\ entry_ext (lit "dir.d/notes.TXT") = lit "txt"
  /\ entry_ext (lit "README") = lit "".
Proof. repeat split; reflexivity. Qed.

Example path_suffix_examples :
  path_suffix (lit "a/b/c.tar.gz") = lit ".gz"
  /\ path_suffix (lit "a/.bashrc") = lit ""
  /\ path_suffix (lit "a.d/README") = lit "".
Proof. repeat split; reflexivity. Qed.

(** Empty text has no matches, whatever the pattern and the mode. *)
Example search_in_text_empty (re : ReEngine) pattern case_sensitive regex :
  search_in_text re [] pattern case_sensitive regex = Ok [].
Proof. reflexivity. Qed.

Example search_in_directory_tree :
  match search_in_directory (toy_engine 100) world_tree (lit "d") (lit "needle")
                            (lit "*") true false false with
  | Ok results =>
      map fr_file results = [lit "d/a.txt"; lit "d/c.txt"; lit "d/e.txt"]
      /\ map fr_match_count results = [1; 1; 1]
  | Raise _ => False
  end.
Proof. split; reflexivity. Qed.

Example search_in_file_corrupt_member :
  let r := search_in_file (toy_engine 100) world_corrupt_member
                          (lit "logs.tar.gz") (lit "needle") false false in
  fr_is_archive r = true /\ fr_match_count r = 1
  /\ map ae_file_in_archive (fr_archive_contents r) = [lit "good.log"]
  /\ fr_error r = None.
Proof. repeat split; reflexivity. Qed.

(* ===================================================================== *)
(** ** Literal search: the records are the occurrences *)
(* ===================================================================== *)

Lemma find_is_occurrence s sub start p :
  find s sub start = Some p -> occurs_at s sub p = true.
Proof.
  unfold find, occurs_at. destruct (length s <? start) eqn:E; [discriminate|].
  intros H. pose proof (find_at_bounds _ _ _ H) as Hb.
  apply find_at_occurs in H. rewrite skipn_skipn in H.
  now replace (p - start + start) with p in H by lia.
Qed.

Lemma find_none_no_occurrence s sub start p :
  find s sub start = None -> start <= p <= length s -> occurs_at s sub p = false.
Proof.
  intros Hnone Hp. destruct (occurs_at s sub p) eqn:E; [|reflexivity].
  destruct (find_lowest _ _ Hp E) as [q [Hq _]]. congruence.
Qed.

Lemma find_skips_no_occurrence s sub start pos p :
  find s sub start = Some pos -> start <= p < pos -> occurs_at s sub p = false.
Proof.
  intros Hfind Hp. destruct (occurs_at s sub p) eqn:E; [|reflexivity].
  pose proof (find_bounds _ _ _ Hfind) as Hb.
  destruct (@find_lowest s sub start p) as [q [Hq Hle]]; [lia | exact E |].
  rewrite Hfind in Hq. injection Hq as <-. lia.
Qed.

Lemma filter_none {A : Type} (f : A -> bool) (l : list A) :
  (forall x, In x l -> f x = false) -> filter f l = [].
Proof.
  induction l as [|x l IH]; intros H; [reflexivity|]. simpl.
  rewrite (H x) by now left. apply IH. intros y Hy. apply H. now right.
Qed.

Lemma occurrences_none s sub start :
  find s sub start = None -> occurrences s sub start = [].
Proof.
  intros H. apply filter_none. intros p Hp. apply in_seq in Hp.
  apply (find_none_no_occurrence _ _ H). lia.
Qed.

Lemma occurrences_some s sub start pos :
  find s sub start = Some pos ->
  occurrences s sub start = pos :: occurrences s sub (pos + 1).
Proof.
  intros H. pose proof (find_bounds _ _ _ H) as Hb. unfold occurrences.
  replace (S (length s) - start)
    with ((pos - start) + S (S (length s) - (pos + 1))) by lia.
  rewrite seq_app, filter_app.
  rewrite filter_none.
  2:{ intros p Hp. apply in_seq in Hp.
      apply (find_skips_no_occurrence _ _ H). lia. }
  replace (start + (pos - start)) with pos by lia.
  cbn [seq filter app]. rewrite (find_is_occurrence _ _ _ H).
  now rewrite Nat.add_1_r.
Qed.

(** The loop appends one record for each occurrence at or after the
    cursor, in increasing order of position. *)
Lemma literal_scan_occurrences i line lts ptu plen start results :
  literal_scan i line lts ptu plen start results
  = results ++ map (literal_record i line plen) (occurrences lts ptu start).
Proof.
  funelim (literal_scan i line lts ptu plen start results).
  - match goal with IH : literal_scan _ _ _ _ _ _ _ = _ ++ map _ _ |- _ =>
      rewrite IH end.
    rewrite (occurrences_some _ _ _ Hfind), <- app_assoc. reflexivity.
  - match goal with E : find _ _ _ = None |- _ =>
      rewrite (occurrences_none _ _ _ E) end.
    now rewrite app_nil_r.
Qed.

Lemma literal_lines_records pattern case_sensitive lines : forall i results,
  literal_lines pattern case_sensitive i lines results
  = results ++ flat_map (line_records pattern case_sensitive)
                        (combine (seq i (length lines)) lines).
Proof.
  induction lines as [|line rest IH]; intros i results; simpl.
  - now rewrite app_nil_r.
  - rewrite IH. unfold literal_line. rewrite literal_scan_occurrences.
    rewrite <- app_assoc. reflexivity.
Qed.

Lemma literal_lines_with_records (fold_case : str -> str) pattern case_sensitive
    lines : forall i results,
  literal_lines_with fold_case pattern case_sensitive i lines results
  = results ++ flat_map (line_records_with fold_case pattern case_sensitive)
                        (combine (seq i (length lines)) lines).
Proof.
  induction lines as [|line rest IH]; intros i results; simpl.
  - now rewrite app_nil_r.
  - rewrite IH. unfold literal_line_with. rewrite literal_scan_occurrences.
    rewrite <- app_assoc. reflexivity.
Qed.

(** The embedded literal search is the one with [lower] for the case
    folding. *)
Lemma literal_lines_with_lower pattern case_sensitive lines : forall i results,
  literal_lines_with lower pattern case_sensitive i lines results
  = literal_lines pattern case_sensitive i lines results.
Proof.
  induction lines as [|line rest IH]; intros i results; [reflexivity|].
  cbn [literal_lines_with literal_lines]. apply IH.
Qed.

Lemma search_in_text_literal_with (re : ReEngine) text pattern case_sensitive :
  search_in_text re text pattern case_sensitive false
  = Ok (literal_search_with lower text pattern case_sensitive).
Proof.
  rewrite search_in_text_literal. unfold literal_search_with.
  destruct text; [reflexivity|]. cbv zeta.
  now rewrite <- literal_lines_with_lower.
Qed.

(** X1. Whatever function [str.lower] is, the literal search of a
    non-empty text returns, line by line, one record for every offset at
    which the pattern occurs in the line as they are searched (the line
    and the pattern themselves, or their lower-cased copies), overlapping
    occurrences included, and nothing else. *)
Theorem literal_search_is_all_occurrences (fold_case : str -> str) (c : char)
    (text pattern : str) (case_sensitive : bool) :
  literal_search_with fold_case (c :: text) pattern case_sensitive
  = flat_map (line_records_with fold_case pattern case_sensitive)
             (enumerate1 (split newline (c :: text))).
Proof.
  unfold literal_search_with. cbv zeta.
  rewrite literal_lines_with_records. reflexivity.
Qed.

(* ===================================================================== *)
(** ** The order of the records and their lines *)
(* ===================================================================== *)

Lemma StronglySorted_app {A : Type} (R : A -> A -> Prop) (l1 l2 : list A) :
  StronglySorted R l1 -> StronglySorted R l2 ->
  (forall a b, In a l1 -> In b l2 -> R a b) ->
  StronglySorted R (l1 ++ l2).
Proof.
  induction l1 as [|x l1 IH]; intros H1 H2 H12; [exact H2|].
  apply StronglySorted_inv in H1 as [H1 Hx]. simpl. constructor.
  - apply IH; auto. intros a b Ha Hb. apply H12; [now right | exact Hb].
  - apply Forall_app. split; [exact Hx|].
    apply Forall_forall. intros b Hb. apply H12; [now left | exact Hb].
Qed.

Lemma StronglySorted_seq (a n : nat) : StronglySorted lt (seq a n).
Proof.
  revert a; induction n as [|n IH]; intros a; simpl; constructor; [apply IH|].
  apply Forall_forall. intros b Hb. apply in_seq in Hb. lia.
Qed.

Lemma StronglySorted_filter {A : Type} (R : A -> A -> Prop) (f : A -> bool) l :
  StronglySorted R l -> StronglySorted R (filter f l).
Proof.
  induction 1 as [|x l Hl IH Hx]; simpl; [constructor|].
  destruct (f x); [|exact IH]. constructor; [exact IH|].
  apply Forall_forall. intros y Hy. apply filter_In in Hy as [Hy _].
  rewrite Forall_forall in Hx. now apply Hx.
Qed.

Lemma StronglySorted_map {A B : Type} (R : A -> A -> Prop) (R' : B -> B -> Prop)
    (f : A -> B) l :
  (forall a b, R a b -> R' (f a) (f b)) ->
  StronglySorted R l -> StronglySorted R' (map f l).
Proof.
  intros Hf. induction 1 as [|x l Hl IH Hx]; simpl; constructor; [exact IH|].
  apply Forall_forall. intros y Hy. apply in_map_iff in Hy as [a [<- Ha]].
  rewrite Forall_forall in Hx. apply Hf. now apply Hx.
Qed.

Lemma line_records_places pattern case_sensitive i line :
  map place (line_records pattern case_sensitive (i, line))
  = map (pair i) (occurrences (searched_line case_sensitive line)
                              (searched_line case_sensitive pattern) 0).
Proof. unfold line_records. rewrite map_map. reflexivity. Qed.

Lemma in_numbered_lines (lines : list str) : forall a i line,
  In (i, line) (combine (seq a (length lines)) lines) ->
  a <= i /\ nth_error lines (i - a) = Some line.
Proof.
  induction lines as [|l rest IH]; intros a i line; simpl; [intros []|].
  intros [[= <- <-] | H].
  - rewrite Nat.sub_diag. split; [lia | reflexivity].
  - apply IH in H as [Hle Hnth]. split; [lia|].
    replace (i - a) with (S (i - S a)) by lia. exact Hnth.
Qed.

Lemma literal_records_sorted pattern case_sensitive (lines : list str) : forall a,
  StronglySorted place_lt
    (map place (flat_map (line_records pattern case_sensitive)
                         (combine (seq a (length lines)) lines))).
Proof.
  induction lines as [|line rest IH]; intros a; simpl; [constructor|].
  rewrite map_app. apply StronglySorted_app.
  - rewrite line_records_places.
    apply StronglySorted_map with (R := lt).
    + intros p q Hpq. right. simpl. split; [reflexivity | exact Hpq].
    + apply StronglySorted_filter, StronglySorted_seq.
  - apply IH.
  - intros x y Hx Hy. rewrite line_records_places in Hx.
    apply in_map_iff in Hx as [p [<- _]].
    apply in_map_iff in Hy as [r [<- Hr]].
    apply in_flat_map in Hr as [[j l] [Hjl Hr]].
    apply in_numbered_lines in Hjl as [Hj _].
    unfold line_records in Hr. apply in_map_iff in Hr as [q [<- _]].
    left. simpl. lia.
Qed.

(** X2. The records of a literal search are in strictly increasing order
    of line and, within a line, of position: no place is reported twice. *)
Theorem literal_records_in_order (re : ReEngine) (text pattern : str)
    (case_sensitive : bool) :
  match search_in_text re text pattern case_sensitive false with
  | Ok recs => StronglySorted place_lt (map place recs)
  | Raise _ => False
  end.
Proof.
  rewrite search_in_text_literal. destruct text as [|c text]; [constructor|].
  rewrite literal_lines_records. apply literal_records_sorted.
Qed.

(* ===================================================================== *)
(** ** Regex search: the records are the spans of the engine *)
(* ===================================================================== *)

Lemma fold_left_append {A B : Type} (f : A -> B) (l : list A) : forall acc,
  fold_left (fun acc m => acc ++ [f m]) l acc = acc ++ map f l.
Proof.
  induction l as [|x l IH]; intros acc; simpl.
  - now rewrite app_nil_r.
  - now rewrite IH, <- app_assoc.
Qed.

Lemma regex_lines_spans (re : ReEngine) (rx : re_pattern re) (lines : list str) :
  forall i results,
    regex_lines re rx i lines results
    = match finditer_lines re rx lines with
      | Ok spans =>
          Ok (results
              ++ span_records (combine (combine (seq i (length lines)) lines) spans))
      | Raise e => Raise e
      end.
Proof.
  induction lines as [|line rest IH]; intros i results; simpl.
  - now rewrite app_nil_r.
  - destruct (re_finditer re rx line) as [spans|e]; simpl; [|reflexivity].
    rewrite IH, fold_left_append.
    destruct (finditer_lines re rx rest) as [more|e]; simpl; [|reflexivity].
    unfold span_records. simpl. now rewrite <- app_assoc.
Qed.

(** X3. In regex mode the search of a non-empty text compiles the pattern
    once and asks the engine for the matches of each line in turn.  When
    nothing raises, the records are those matches, line by line in the
    order the engine gave them; an [re.error] from the compilation or from
    any line gives the empty list, dropping the matches of earlier lines;
    any other exception is raised to the caller. *)
Theorem regex_search_is_engine_spans (re : ReEngine) (c : char)
    (text pattern : str) (case_sensitive : bool) :
  let lines := split newline (c :: text) in
  search_in_text re (c :: text) pattern case_sensitive true
  = match re_compile re pattern (if case_sensitive then NOFLAG else IGNORECASE) with
    | Raise (re_error _) => Ok []
    | Raise e => Raise e
    | Ok rx =>
        match finditer_lines re rx lines with
        | Ok spans => Ok (span_records (combine (enumerate1 lines) spans))
        | Raise (re_error _) => Ok []
        | Raise e => Raise e
        end
    end.
Proof.
  intros lines. unfold search_in_text. fold lines.
  destruct (re_compile re pattern (if case_sensitive then NOFLAG else IGNORECASE))
    as [rx|e]; simpl bind; [|reflexivity].
  rewrite regex_lines_spans.
  destruct (finditer_lines re rx lines) as [spans|e]; reflexivity.
Qed.

Lemma regex_lines_line_numbers (re : ReEngine) (rx : re_pattern re)
    (lines : list str) (recs : list MatchRecord) :
  regex_lines re rx 1 lines [] = Ok recs ->
  Forall (fun r => 1 <= mr_line r
                   /\ nth_error lines (mr_line r - 1) = Some (mr_full_line r)) recs.
Proof.
  rewrite regex_lines_spans.
  destruct (finditer_lines re rx lines) as [spans|e]; [|discriminate].
  intros [= <-]. simpl app. apply Forall_forall. intros r Hr.
  unfold span_records in Hr. apply in_flat_map in Hr as [[[i line] sp] [Hin Hr]].
  apply in_combine_l in Hin. apply in_numbered_lines in Hin.
  simpl in Hr. apply in_map_iff in Hr as [m [<- _]]. exact Hin.
Qed.

(** X4. In both modes every record carries the 1-based number of its line
    and that line as [full_line]: line [mr_line] of the text, split at
    newlines, is [mr_full_line]. *)
Theorem record_line_is_numbered_line (re : ReEngine) (text pattern : str)
    (case_sensitive regex : bool) :
  match search_in_text re text pattern case_sensitive regex with
  | Ok recs =>
      Forall (fun r => 1 <= mr_line r
                       /\ nth_error (split newline text) (mr_line r - 1)
                          = Some (mr_full_line r)) recs
  | Raise _ => True
  end.
Proof.
  destruct regex.
  - unfold search_in_text. destruct text as [|c text]; [constructor|].
    destruct (re_compile re pattern (if case_sensitive then NOFLAG else IGNORECASE))
      as [rx|[msg|msg]]; unfold bind; cbv beta iota; [|constructor|exact I].
    destruct (regex_lines re rx 1 (split newline (c :: text)) [])
      as [recs|[msg|msg]] eqn:E; cbv iota; [|constructor|exact I].
    now apply regex_lines_line_numbers with (rx := rx).
  - rewrite search_in_text_literal. destruct text as [|c text]; [constructor|].
    rewrite literal_lines_records. simpl app.
    apply Forall_forall. intros r Hr.
    apply in_flat_map in Hr as [[i line] [Hin Hr]].
    apply in_numbered_lines in Hin.
    unfold line_records in Hr. apply in_map_iff in Hr as [p [<- _]]. exact Hin.
Qed.

(* ===================================================================== *)
(** ** Literal search: patterns that cannot match *)
(* ===================================================================== *)

Lemma split_no_sep sep s : forall line, In line (split sep s) -> ~ In sep line.
Proof.
  induction s as [|d s IH]; intros line; simpl.
  - intros [<- | []] [].
  - destruct (char_eqb d sep) eqn:E.
    + intros [<- | H]; [intros [] | now apply IH].
    + destruct (split sep s) as [|l ls] eqn:Es.
      * intros [<- | []] [-> | []]. unfold char_eqb in E.
        now rewrite N.eqb_refl in E.
      * intros [<- | H].
        -- intros [-> | Hin].
           ++ unfold char_eqb in E. now rewrite N.eqb_refl in E.
           ++ apply (IH l); [now left | exact Hin].
        -- apply IH. now right.
Qed.

Lemma lower_char_newline c : In newline (lower_char c) -> c = newline.
Proof.
  unfold lower_char, newline.
  destruct ((65 <=? c)%N && (c <=? 90)%N) eqn:E1.
  { apply andb_true_iff in E1 as [H1 _]. apply N.leb_le in H1.
    intros [H | []]. lia. }
  destruct ((192 <=? c)%N && (c <=? 222)%N && negb (c =? 215)%N) eqn:E2.
  { apply andb_true_iff in E2 as [E2 _]. apply andb_true_iff in E2 as [H1 _].
    apply N.leb_le in H1. intros [H | []]. lia. }
  destruct (c =? 304)%N.
  { intros [H | [H | []]]; discriminate. }
  destruct ((1024 <=? c)%N && (c <=? 1039)%N) eqn:E3.
  { apply andb_true_iff in E3 as [H1 _]. apply N.leb_le in H1.
    intros [H | []]. lia. }
  destruct ((1040 <=? c)%N && (c <=? 1071)%N) eqn:E4.
  { apply andb_true_iff in E4 as [H1 _]. apply N.leb_le in H1.
    intros [H | []]. lia. }
  intros [H | []]. exact H.
Qed.

Lemma searched_line_newline case_sensitive s :
  In newline (searched_line case_sensitive s) <-> In newline s.
Proof.
  destruct case_sensitive; simpl; [reflexivity|]. unfold lower.
  rewrite in_flat_map. split.
  - intros [c [Hc Hin]]. apply lower_char_newline in Hin. now subst.
  - intros H. exists newline. split; [exact H | now left].
Qed.

Lemma occurs_at_chars s sub p x :
  occurs_at s sub p = true -> In x sub -> In x s.
Proof.
  unfold occurs_at. intros H Hx. apply startswith_app in H as [rest H].
  rewrite <- (firstn_skipn p s), H. apply in_or_app. right.
  apply in_or_app. now left.
Qed.

Lemma flat_map_nil {A B : Type} (f : A -> list B) (l : list A) :
  (forall x, In x l -> f x = []) -> flat_map f l = [].
Proof.
  induction l as [|x l IH]; intros H; [reflexivity|]. simpl.
  rewrite (H x) by now left. apply IH. intros y Hy. apply H. now right.
Qed.

(** X5. A literal pattern that contains a newline matches nothing: the
    text is split at newlines before it is searched, so no match crosses
    a line boundary. *)
Theorem literal_newline_pattern_no_match (re : ReEngine) (text pattern : str)
    (case_sensitive : bool) :
  In newline pattern ->
  search_in_text re text pattern case_sensitive false = Ok [].
Proof.
  intros Hnl. rewrite search_in_text_literal.
  destruct text as [|c text]; [reflexivity|].
  rewrite literal_lines_records, app_nil_l. f_equal.
  apply flat_map_nil. intros [i line] Hin.
  apply in_combine_r in Hin. apply split_no_sep in Hin.
  unfold line_records. simpl fst. simpl snd.
  replace (occurrences _ _ 0) with (@nil nat); [reflexivity|].
  symmetry. apply filter_none. intros p _.
  destruct (occurs_at (searched_line case_sensitive line)
                      (searched_line case_sensitive pattern) p) eqn:E;
    [|reflexivity].
  exfalso. apply Hin. apply (searched_line_newline case_sensitive).
  eapply occurs_at_chars; [exact E|]. now apply searched_line_newline.
Qed.

Lemma literal_newline_pattern_no_match_witness :
  search_in_text (toy_engine 100) (lit "ab" ++ newline :: lit "cd")
                 (lit "b" ++ newline :: lit "c") false false = Ok [].
Proof.
  apply (@literal_newline_pattern_no_match (toy_engine 100)).
  right. left. reflexivity.
Defined.

Lemma occurs_at_slice (s sub : str) (p : nat) :
  occurs_at s sub p = true -> slice s p (p + length sub) = sub.
Proof.
  unfold occurs_at, slice. intros H. apply startswith_app in H as [rest ->].
  replace (p + length sub - p) with (length sub + 0) by lia.
  rewrite firstn_app_2. simpl. apply app_nil_r.
Qed.

Lemma slice_map (g : char -> char) (s : str) (a b : nat) :
  slice (map g s) a b = map g (slice s a b).
Proof. unfold slice. now rewrite skipn_map, firstn_map. Qed.

Lemma slice_chars (s : str) (a b : nat) (x : char) : In x (slice s a b) -> In x s.
Proof.
  unfold slice. intros H.
  rewrite <- (firstn_skipn a s). apply in_or_app. right.
  rewrite <- (firstn_skipn (b - a) (skipn a s)). apply in_or_app. now left.
Qed.

(** X6. In a case-sensitive literal search the matched text of every
    record is the pattern.  In a case-insensitive one the matched text
    lower-cased is the pattern lower-cased, provided [str.lower] acts on
    the strings made of the characters of the text and of the pattern
    code point by code point, as one map [g] (it does on text and
    patterns without U+0130, whose lowercase has two code points, and
    without U+03A3, whose lowercase depends on its neighbours). *)
Theorem literal_match_occurs (fold_case : str -> str) (g : char -> char)
    (text pattern : str) (case_sensitive : bool) :
  (case_sensitive = false ->
   forall s, (forall x, In x s -> In x text \/ In x pattern) ->
             fold_case s = map g s) ->
  Forall (fun r => searched_with fold_case case_sensitive (mr_match r)
                   = searched_with fold_case case_sensitive pattern)
         (literal_search_with fold_case text pattern case_sensitive).
Proof.
  intros Hmap. unfold literal_search_with. cbv zeta.
  destruct text as [|c text]; [constructor|].
  rewrite literal_lines_with_records, app_nil_l.
  apply Forall_forall. intros r Hr.
  apply in_flat_map in Hr as [[i line] [Hin Hr]].
  apply in_combine_r in Hin.
  unfold line_records_with in Hr. cbn [fst snd] in Hr.
  apply in_map_iff in Hr as [p [<- Hp]].
  apply filter_In in Hp as [_ Hocc]. apply occurs_at_slice in Hocc.
  cbn [mr_match literal_record].
  destruct case_sensitive; cbn [searched_with] in Hocc |- *; [exact Hocc|].
  specialize (Hmap eq_refl).
  assert (Hline : fold_case line = map g line).
  { apply Hmap. intros x Hx. left. eapply split_chars; eauto. }
  assert (Hpat : fold_case pattern = map g pattern).
  { apply Hmap. intros x Hx. now right. }
  rewrite Hline, Hpat, length_map, slice_map in Hocc.
  rewrite Hpat, <- Hocc. apply Hmap.
  intros x Hx. left. apply slice_chars in Hx. eapply split_chars; eauto.
Qed.

Lemma literal_match_occurs_witness :
  Forall (fun r => lower (mr_match r) = lower (lit "abc"))
         (literal_search_with lower (lit "xx AbC yy") (lit "abc") false).
Proof.
  apply (@literal_match_occurs lower (fun c => hd c (lower_char c))
           (lit "xx AbC yy") (lit "abc") false).
  intros _ s Hs. induction s as [|a s IH]; [reflexivity|].
  change (lower (a :: s)) with (lower_char a ++ lower s).
  rewrite IH by (intros x Hx; apply Hs; now right).
  destruct (Hs a (or_introl eq_refl)) as [H | H]; simpl in H;
    repeat (destruct H as [<- | H]; [reflexivity|]); destruct H.
Defined.

(* ===================================================================== *)
(** ** The context of a match in a short line *)
(* ===================================================================== *)

(** X7. When at most 50 characters precede the match and at most 50
    follow it, the context is the whole line, without any "...": so it is
    for every match in a line of up to 50 characters. *)
Theorem context_is_whole_line (line : str) (start end_ : nat) :
  start <= 50 -> length line <= end_ + 50 ->
  _get_context line start end_ = line.
Proof.
  intros Hs He. rewrite _get_context_eq.
  replace (50 <? start) with false by (symmetry; apply Nat.ltb_ge; lia).
  replace (end_ + 50 <? length line) with false
    by (symmetry; apply Nat.ltb_ge; lia).
  replace (start - 50) with 0 by lia.
  unfold slice. rewrite Nat.sub_0_r. simpl.
  rewrite app_nil_r. apply firstn_all2. exact He.
Qed.

Lemma context_is_whole_line_witness :
  _get_context (lit "xx abc yy") 3 6 = lit "xx abc yy".
Proof.
  apply context_is_whole_line; simpl; lia.
Defined.

(* ===================================================================== *)
(** ** Decoded archives as dictionaries *)
(* ===================================================================== *)

Lemma dict_get_set_same k v d : dict_get k (dict_set k v d) = Some v.
Proof.
  induction d as [|[k' v'] d IH]; simpl.
  - now rewrite eqb_refl.
  - destruct (eqb k' k) eqn:E; simpl.
    + now rewrite eqb_refl.
    + now rewrite E.
Qed.

Lemma dict_get_set_other k k' v d :
  eqb k k' = false -> dict_get k' (dict_set k v d) = dict_get k' d.
Proof.
  intros Hne. induction d as [|[k0 v0] d IH]; simpl.
  - now rewrite Hne.
  - destruct (eqb k0 k) eqn:E; simpl.
    + apply eqb_eq in E. subst k0. now rewrite Hne.
    + now rewrite IH.
Qed.

Lemma NoDup_keys_dict_set k v d : NoDup (keys d) -> NoDup (keys (dict_set k v d)).
Proof.
  induction d as [|[k' v'] d IH]; simpl; intros H.
  - constructor; [intros [] | constructor].
  - inversion H as [|? ? Hnotin Hd]; subst.
    destruct (eqb k' k) eqn:E; simpl.
    + apply eqb_eq in E. subst k'. now constructor.
    + constructor; [|now apply IH].
      intros Hin. apply keys_dict_set in Hin as [-> | Hin].
      * now rewrite eqb_refl in E.
      * now apply Hnotin.
Qed.

Lemma zip_loop_NoDup infos : forall content,
  NoDup (keys content) -> NoDup (keys (zip_loop infos content)).
Proof.
  induction infos as [|fi rest IH]; intros content H; cbn [zip_loop]; cbv zeta;
    [exact H|].
  destruct (negb (zi_is_dir fi)); [|now apply IH].
  destruct (mem (entry_ext (zi_filename fi)) archive_extensions); [|now apply IH].
  destruct (zi_text fi); [|now apply IH].
  apply IH. now apply NoDup_keys_dict_set.
Qed.

Lemma tar_loop_NoDup members : forall content,
  NoDup (keys content) -> NoDup (keys (tar_loop members content)).
Proof.
  induction members as [|m rest IH]; intros content H; cbn [tar_loop]; cbv zeta;
    [exact H|].
  destruct (isfile (ti_type m)); [|now apply IH].
  destruct (mem (entry_ext (ti_name m)) archive_extensions); [|now apply IH].
  destruct (ti_text m); [|now apply IH].
  apply IH. now apply NoDup_keys_dict_set.
Qed.

Lemma zip_loop_get name infos : forall content,
  dict_get name (zip_loop infos content)
  = last_zip_text name infos (dict_get name content).
Proof.
  unfold last_zip_text.
  induction infos as [|fi rest IH]; intros content;
    cbn [zip_loop fold_left]; cbv zeta; [reflexivity|].
  unfold zip_entry_kept at 2.
  destruct (negb (zi_is_dir fi)); cbn [andb]; [|apply IH].
  destruct (mem (entry_ext (zi_filename fi)) archive_extensions);
    cbn [andb]; [|apply IH].
  destruct (zi_text fi) as [text|]; cbn [is_some andb]; [|apply IH].
  rewrite IH. f_equal.
  destruct (eqb (zi_filename fi) name) eqn:E.
  - apply eqb_eq in E. subst name. apply dict_get_set_same.
  - now apply dict_get_set_other.
Qed.

Lemma tar_loop_get name members : forall content,
  dict_get name (tar_loop members content)
  = last_tar_text name members (dict_get name content).
Proof.
  unfold last_tar_text.
  induction members as [|m rest IH]; intros content;
    cbn [tar_loop fold_left]; cbv zeta; [reflexivity|].
  unfold tar_member_kept at 2.
  destruct (isfile (ti_type m)); cbn [andb]; [|apply IH].
  destruct (mem (entry_ext (ti_name m)) archive_extensions);
    cbn [andb]; [|apply IH].
  destruct (ti_text m) as [text|]; cbn [is_some andb]; [|apply IH].
  rewrite IH. f_equal.
  destruct (eqb (ti_name m) name) eqn:E.
  - apply eqb_eq in E. subst name. apply dict_get_set_same.
  - now apply dict_get_set_other.
Qed.

(** X8. The text a decoded archive holds under a name is the text of the
    last entry of that name that the reader keeps: when an archive has
    several readable entries of one name, the later ones replace the
    earlier.  An archive that cannot be opened, and a rar archive without
    rar support, decode to the empty mapping. *)
Theorem archive_lookup (w : World) (file_path name : str) :
  dict_get name (_read_zip_file w file_path)
  = match ZipFile w file_path with
    | Some infos => last_zip_text name infos None
    | None => None
    end
  /\ dict_get name (_read_tar_file w file_path)
     = match tarfile_open w file_path (tar_mode_of file_path) with
       | Some members => last_tar_text name members None
       | None => None
       end
  /\ dict_get name (_read_rar_file w file_path)
     = if RAR_SUPPORT w
       then match RarFile w file_path with
            | Some infos => last_zip_text name infos None
            | None => None
            end
       else None.
Proof.
  split; [|split].
  - unfold _read_zip_file. destruct (ZipFile w file_path); [|reflexivity].
    apply zip_loop_get.
  - unfold _read_tar_file. fold (tar_mode_of file_path).
    destruct (tarfile_open w file_path (tar_mode_of file_path)); [|reflexivity].
    apply tar_loop_get.
  - unfold _read_rar_file. destruct (RAR_SUPPORT w); [|reflexivity]. simpl.
    destruct (RarFile w file_path); [|reflexivity].
    apply zip_loop_get.
Qed.

(* ===================================================================== *)
(** ** Format dispatch *)
(* ===================================================================== *)

Lemma split_nonempty sep s : split sep s <> [].
Proof.
  destruct s as [|d s]; simpl; [discriminate|].
  destruct (char_eqb d sep); [discriminate|].
  destruct (split sep s); discriminate.
Qed.

Lemma split_app_sep sep b e :
  split sep (b ++ sep :: e) = split sep b ++ split sep e.
Proof.
  induction b as [|d b IH]; simpl.
  - unfold char_eqb. now rewrite N.eqb_refl.
  - rewrite IH. destruct (char_eqb d sep); [reflexivity|].
    pose proof (@split_nonempty sep b) as Hne.
    destruct (split sep b) as [|l ls]; [congruence | reflexivity].
Qed.

Lemma split_without_sep sep e : ~ In sep e -> split sep e = [e].
Proof.
  induction e as [|d e IH]; intros H; simpl; [reflexivity|].
  destruct (char_eqb d sep) eqn:E.
  - apply char_eqb_eq in E. subst d. exfalso. apply H. now left.
  - rewrite IH; [reflexivity|]. intros Hin. apply H. now right.
Qed.

Lemma last_app_nonempty {A : Type} (l1 l2 : list A) (d : A) :
  l2 <> [] -> last (l1 ++ l2) d = last l2 d.
Proof.
  intros H. induction l1 as [|x l1 IH]; [reflexivity|].
  simpl. destruct (l1 ++ l2) eqn:E; [|exact IH].
  apply app_eq_nil in E as [_ E]. congruence.
Qed.

Lemma contains_char_app c b e : contains_char c (b ++ c :: e) = true.
Proof.
  unfold contains_char. rewrite existsb_app. simpl.
  unfold char_eqb. rewrite N.eqb_refl. apply orb_true_r.
Qed.

(** The extension of [base.e], where [e] has no dot. *)
Lemma dispatch_ext_app base e :
  ~ In dot e -> dispatch_ext (base ++ dot :: e) = lower e.
Proof.
  intros H. unfold dispatch_ext.
  rewrite contains_char_app, split_app_sep, (@split_without_sep dot e H).
  rewrite last_app_nonempty by discriminate. reflexivity.
Qed.

Lemma read_file_unfold (w : World) (file_path : str) :
  read_file w file_path
  = if negb (path_exists w file_path) then Text []
    else
      let ext := dispatch_ext file_path in
      if mem ext (map lit ["zip"; "rar"; "tar"; "gz"]%string) then
        if eqb ext (lit "zip") then Archive (_read_zip_file w file_path)
        else if eqb ext (lit "rar") && RAR_SUPPORT w
             then Archive (_read_rar_file w file_path)
        else if mem ext (map lit ["tar"; "gz"]%string)
             then Archive (_read_tar_file w file_path)
        else Archive []
      else Text (_read_text_file w file_path).
Proof.
  unfold read_file, dispatch_ext. cbv zeta.
  destruct (negb (path_exists w file_path)); [reflexivity|].
  destruct (mem _ (map lit ["zip"; "rar"; "tar"; "gz"]%string)); [reflexivity|].
  now destruct (supported w _).
Qed.

(** X9. An existing path [base.e], where [e] has no dot, is decoded by
    the lower-cased [e] alone, whatever the file holds: "zip" as a zip
    archive, "tar" and "gz" as a tar archive, "rar" as a rar archive when
    rar support is present and as the empty mapping when it is not, and
    everything else as plain text.  A path that does not exist decodes to
    the empty text without any file being opened. *)
Theorem read_file_dispatch (w : World) (base e : str) :
  let file_path := base ++ dot :: e in
  ~ In dot e ->
  (path_exists w file_path = false -> read_file w file_path = Text [])
  /\ (path_exists w file_path = true ->
      (lower e = lit "zip" ->
       read_file w file_path = Archive (_read_zip_file w file_path))
      /\ (lower e = lit "tar" \/ lower e = lit "gz" ->
          read_file w file_path = Archive (_read_tar_file w file_path))
      /\ (lower e = lit "rar" ->
          read_file w file_path
          = Archive (if RAR_SUPPORT w then _read_rar_file w file_path else []))
      /\ (mem (lower e) (map lit ["zip"; "rar"; "tar"; "gz"]%string) = false ->
          read_file w file_path = Text (_read_text_file w file_path))).
Proof.
  intros file_path Hdot. split.
  - intros Hex. rewrite read_file_unfold, Hex. reflexivity.
  - intros Hex. rewrite read_file_unfold, Hex. cbv zeta. cbn [negb].
    unfold file_path. rewrite (@dispatch_ext_app base e Hdot).
    split; [|split; [|split]].
    + intros ->. reflexivity.
    + intros [-> | ->]; reflexivity.
    + intros ->. now destruct (RAR_SUPPORT w).
    + intros ->. reflexivity.
Qed.

Lemma read_file_dispatch_witness :
  read_file world_two_entries (lit "logs.zip")
  = Archive (_read_zip_file world_two_entries (lit "logs.zip")).
Proof.
  destruct (@read_file_dispatch world_two_entries (lit "logs") (lit "zip"))
    as [_ H].
  - intros [H | [H | [H | []]]]; discriminate.
  - destruct H as [H _]; [reflexivity|]. apply H. reflexivity.
Defined.

(* ===================================================================== *)
(** ** The walker and the decoder agree on extensions *)
(* ===================================================================== *)

Lemma rfind_char_none c s : rfind_char c s = None -> ~ In c s.
Proof.
  induction s as [|d s IH]; simpl; [intros _ []|].
  destruct (rfind_char c s); [discriminate|].
  destruct (char_eqb d c) eqn:E; [discriminate|].
  intros _ [-> | H]; [|now apply IH].
  unfold char_eqb in E. now rewrite N.eqb_refl in E.
Qed.

Lemma rfind_char_some c s : forall j,
  rfind_char c s = Some j ->
  s = firstn j s ++ c :: skipn (S j) s /\ ~ In c (skipn (S j) s).
Proof.
  induction s as [|d s IH]; intros j; simpl; [discriminate|].
  destruct (rfind_char c s) as [i|] eqn:E.
  - intros [= <-]. destruct (IH i eq_refl) as [Hs Hnot].
    split; [|exact Hnot].
    change (d :: s = d :: (firstn i s ++ c :: skipn (S i) s)).
    f_equal. exact Hs.
  - destruct (char_eqb d c) eqn:Ed; [|discriminate].
    intros [= <-]. apply char_eqb_eq in Ed. subst d.
    split; [reflexivity | now apply rfind_char_none].
Qed.

(** X10. For every path whose last component has a suffix (a dot that is
    neither its first nor its last character), the extension the
    directory walker tests is the extension [read_file] dispatches on, so
    a file the walker accepts for its extension is decoded by that same
    extension. *)
Theorem walker_and_decoder_extensions_agree (file_path : str) :
  path_suffix file_path <> [] ->
  walk_ext file_path = dispatch_ext file_path.
Proof.
  unfold walk_ext, path_suffix, slice_from.
  set (name := path_name file_path).
  assert (Hname : exists prefix, file_path = prefix ++ name).
  { unfold name, path_name. destruct (rfind_char slash file_path) as [k|].
    - exists (firstn (S k) file_path). now rewrite firstn_skipn.
    - now exists []. }
  destruct Hname as [prefix Hp].
  destruct (rfind_char dot name) as [i|] eqn:E; [|congruence].
  destruct ((0 <? i) && (i <? length name - 1)); [|congruence].
  intros _. destruct (rfind_char_some _ _ E) as [Hsplit Hnot].
  rewrite skipn_skipn. replace (1 + i) with (S i) by lia.
  rewrite Hp. rewrite Hsplit at 2. rewrite app_assoc.
  symmetry. now apply dispatch_ext_app.
Qed.

Lemma walker_and_decoder_extensions_agree_witness :
  walk_ext (lit "backup/2024.d/logs.TAR.GZ")
  = dispatch_ext (lit "backup/2024.d/logs.TAR.GZ").
Proof.
  apply walker_and_decoder_extensions_agree. discriminate.
Defined.

(** Where the last component has no suffix the two may differ: the walker
    takes the hidden file ".zip" for a file without extension, and
    [read_file] decodes it as a zip archive. *)
Example hidden_file_extensions :
  walk_ext (lit "d/.zip") = lit "" /\ dispatch_ext (lit "d/.zip") = lit "zip".
Proof. split; reflexivity. Qed.

(* ===================================================================== *)
(** ** File results: what the archive loop collects *)
(* ===================================================================== *)

Section ArchiveLoopFacts.

Variable re : ReEngine.
Variables (pattern : str) (case_sensitive regex : bool).

Lemma archive_loop_contents (items : dict) : forall r,
  exists searched rest,
    items = searched ++ rest
    /\ fr_archive_contents
         (fst (archive_loop re items pattern case_sensitive regex r))
       = fr_archive_contents r
         ++ flat_map (entry_results re pattern case_sensitive regex) searched
    /\ (snd (archive_loop re items pattern case_sensitive regex r) = None ->
        rest = []).
Proof.
  induction items as [|[filename text] items IH]; intros r; simpl.
  - exists [], []. simpl. now rewrite app_nil_r.
  - assert (Hskip : forall r1,
               fr_archive_contents r1
               = fr_archive_contents r
                 ++ entry_results re pattern case_sensitive regex (filename, text) ->
               exists searched rest,
                 (filename, text) :: items = searched ++ rest
                 /\ fr_archive_contents
                      (fst (archive_loop re items pattern case_sensitive regex r1))
                    = fr_archive_contents r
                      ++ flat_map (entry_results re pattern case_sensitive regex)
                                  searched
                 /\ (snd (archive_loop re items pattern case_sensitive regex r1)
                     = None -> rest = [])).
    { intros r1 Hr1. destruct (IH r1) as [searched [rest [-> [Hc Hn]]]].
      exists ((filename, text) :: searched), rest.
      split; [reflexivity|]. split; [|exact Hn].
      rewrite Hc, Hr1. simpl. now rewrite <- app_assoc. }
    unfold entry_results in Hskip. simpl fst in Hskip. simpl snd in Hskip.
    destruct (truthy text).
    + destruct (search_in_text re text pattern case_sensitive regex)
        as [[|m ms]|e].
      * apply Hskip. now rewrite app_nil_r.
      * apply Hskip. reflexivity.
      * exists [], ((filename, text) :: items). simpl.
        split; [reflexivity|]. split; [now rewrite app_nil_r | discriminate].
    + apply Hskip. now rewrite app_nil_r.
Qed.

Lemma archive_loop_file (items : dict) : forall r,
  fr_file (fst (archive_loop re items pattern case_sensitive regex r)) = fr_file r.
Proof.
  induction items as [|[filename text] items IH]; intros r; simpl; [reflexivity|].
  destruct (truthy text); [|apply IH].
  destruct (search_in_text re text pattern case_sensitive regex)
    as [[|m ms]|e]; simpl; [apply IH | now rewrite IH | reflexivity].
Qed.

Lemma entry_results_names (items : dict) (name : str) :
  In name (map ae_file_in_archive
               (flat_map (entry_results re pattern case_sensitive regex) items)) ->
  In name (keys items).
Proof.
  induction items as [|[filename text] items IH]; simpl; [auto|].
  rewrite map_app, in_app_iff. intros [H | H]; [left | right; now apply IH].
  unfold entry_results in H. simpl in H.
  destruct (truthy text); [|destruct H].
  destruct (search_in_text re text pattern case_sensitive regex)
    as [[|m ms]|e]; simpl in H; [destruct H | | destruct H].
  destruct H as [H | []]. exact H.
Qed.

Lemma entry_results_NoDup (items : dict) :
  NoDup (keys items) ->
  NoDup (map ae_file_in_archive
             (flat_map (entry_results re pattern case_sensitive regex) items)).
Proof.
  induction items as [|[filename text] items IH]; simpl; intros H; [constructor|].
  inversion H as [|? ? Hnotin Hrest]; subst.
  rewrite map_app. unfold entry_results at 1. simpl fst. simpl snd.
  destruct (truthy text); [|now apply IH].
  destruct (search_in_text re text pattern case_sensitive regex)
    as [[|m ms]|e]; simpl; [now apply IH | | now apply IH].
  constructor; [|now apply IH].
  intros Hin. apply Hnotin. now apply entry_results_names.
Qed.

End ArchiveLoopFacts.

Lemma read_file_archive_NoDup (w : World) (file_path : str) (d : dict) :
  read_file w file_path = Archive d -> NoDup (keys d).
Proof.
  rewrite read_file_unfold. cbv zeta.
  destruct (negb (path_exists w file_path)); [discriminate|].
  destruct (mem (dispatch_ext file_path) _); [|discriminate].
  destruct (eqb (dispatch_ext file_path) (lit "zip")).
  { intros [= <-]. unfold _read_zip_file.
    destruct (ZipFile w file_path); [|constructor].
    apply zip_loop_NoDup. constructor. }
  destruct (eqb (dispatch_ext file_path) (lit "rar") && RAR_SUPPORT w).
  { intros [= <-]. unfold _read_rar_file.
    destruct (negb (RAR_SUPPORT w)); [constructor|].
    destruct (RarFile w file_path); [|constructor].
    apply zip_loop_NoDup. constructor. }
  destruct (mem (dispatch_ext file_path) _).
  { intros [= <-]. unfold _read_tar_file.
    destruct (tarfile_open w file_path _); [|constructor].
    apply tar_loop_NoDup. constructor. }
  intros [= <-]. constructor.
Qed.

(** X11. When the search of an archive ends without an exception,
    [archive_contents] holds, in the order of the decoded mapping, one
    element for each entry whose text is not empty and has at least one
    match, with all the matches of that entry; entries without text or
    without matches leave no element. *)
Theorem archive_contents_are_matching_entries (re : ReEngine) (w : World)
    (file_path pattern : str) (case_sensitive regex : bool) (content : dict) :
  read_file w file_path = Archive content ->
  fr_error (search_in_file re w file_path pattern case_sensitive regex) = None ->
  fr_archive_contents (search_in_file re w file_path pattern case_sensitive regex)
  = flat_map (entry_results re pattern case_sensitive regex) content.
Proof.
  unfold search_in_file, search_body. intros ->.
  destruct (archive_loop_contents re pattern case_sensitive regex content
              (set_is_archive true (new_results file_path)))
    as [searched [rest [Hc [Hcont Hnone]]]].
  destruct (archive_loop re content pattern case_sensitive regex
              (set_is_archive true (new_results file_path))) as [r' [e|]];
    simpl in *; [discriminate|].
  intros _. rewrite Hcont, Hc, (Hnone eq_refl), app_nil_r. reflexivity.
Qed.

Lemma archive_contents_are_matching_entries_witness :
  fr_archive_contents
    (search_in_file (toy_engine 100) world_corrupt_member
                    (lit "logs.tar.gz") (lit "needle") false false)
  = flat_map (entry_results (toy_engine 100) (lit "needle") false false)
             [(lit "good.log", lit "needle")].
Proof.
  apply archive_contents_are_matching_entries; reflexivity.
Defined.

(** X12. In every result of [search_in_file] the names in
    [archive_contents] are pairwise different and are names of the decoded
    archive: an archive with several entries of one name is reported under
    that name once. *)
Theorem archive_contents_names_distinct (re : ReEngine) (w : World)
    (file_path pattern : str) (case_sensitive regex : bool) :
  let names :=
    map ae_file_in_archive
        (fr_archive_contents
           (search_in_file re w file_path pattern case_sensitive regex)) in
  NoDup names
  /\ match read_file w file_path with
     | Archive content => incl names (keys content)
     | Text _ => names = []
     end.
Proof.
  unfold search_in_file, search_body.
  destruct (read_file w file_path) as [text|content] eqn:Eread.
  - destruct (search_in_text re text pattern case_sensitive regex);
      simpl; split; (constructor || reflexivity).
  - apply read_file_archive_NoDup in Eread.
    destruct (archive_loop_contents re pattern case_sensitive regex content
                (set_is_archive true (new_results file_path)))
      as [searched [rest [Hc [Hcont _]]]].
    assert (Hnames :
              map ae_file_in_archive
                  (fr_archive_contents
                     (fst (archive_loop re content pattern case_sensitive regex
                             (set_is_archive true (new_results file_path)))))
              = map ae_file_in_archive
                    (flat_map (entry_results re pattern case_sensitive regex)
                              searched)).
    { now rewrite Hcont. }
    assert (Hsame : forall r' ex,
               archive_loop re content pattern case_sensitive regex
                 (set_is_archive true (new_results file_path)) = (r', ex) ->
               fr_archive_contents
                 (match ex with
                  | Some e => set_error (exn_str e) r'
                  | None => r'
                  end)
               = fr_archive_contents
                   (fst (archive_loop re content pattern case_sensitive regex
                           (set_is_archive true (new_results file_path))))).
    { intros r' ex ->. now destruct ex. }
    destruct (archive_loop re content pattern case_sensitive regex
                (set_is_archive true (new_results file_path))) as [r' ex] eqn:Eloop.
    cbv zeta. replace (let (results, o) := (r', ex) in
                       match o with
                       | Some e => set_error (exn_str e) results
                       | None => results
                       end)
      with (match ex with
            | Some e => set_error (exn_str e) r'
            | None => r'
            end) by now destruct ex.
    rewrite (Hsame r' ex eq_refl), Hnames.
    subst content. unfold keys in Eread. rewrite map_app in Eread.
    split.
    + apply entry_results_NoDup. now apply NoDup_app_remove_r in Eread.
    + intros name Hin. apply entry_results_names in Hin.
      unfold keys. rewrite map_app. apply in_or_app. now left.
Qed.

(* ===================================================================== *)
(** ** File results: empty decodes and patterns that do not compile *)
(* ===================================================================== *)

Lemma archive_loop_quiet (re : ReEngine) (pattern : str)
    (case_sensitive regex : bool) (items : dict) :
  (forall text, search_in_text re text pattern case_sensitive regex = Ok []) ->
  forall r, archive_loop re items pattern case_sensitive regex r = (r, None).
Proof.
  intros Hquiet. induction items as [|[filename text] items IH]; intros r; simpl;
    [reflexivity|].
  destruct (truthy text); [|apply IH]. rewrite Hquiet. simpl. apply IH.
Qed.

Lemma search_in_file_quiet (re : ReEngine) (w : World) (file_path pattern : str)
    (case_sensitive regex : bool) :
  (forall text, search_in_text re text pattern case_sensitive regex = Ok []) ->
  search_in_file re w file_path pattern case_sensitive regex
  = match read_file w file_path with
    | Archive _ => set_is_archive true (new_results file_path)
    | Text _ => new_results file_path
    end.
Proof.
  intros Hquiet. unfold search_in_file, search_body.
  destruct (read_file w file_path) as [text|content].
  - now rewrite Hquiet.
  - now rewrite archive_loop_quiet.
Qed.

(** X13. A path that does not exist gives the initial result: no matches,
    no archive entries, a count of 0, not an archive and no error, for
    every pattern in both modes, also when the path ends in ".zip".  An
    existing ".rar" file searched without rar support gives the same
    result marked as an archive: it is reported as an archive without
    matches, not as an error. *)
Theorem search_in_file_empty_decodes (re : ReEngine) (w : World)
    (file_path pattern : str) (case_sensitive regex : bool) :
  (path_exists w file_path = false ->
   search_in_file re w file_path pattern case_sensitive regex
   = new_results file_path)
  /\ (forall base e,
         file_path = base ++ dot :: e -> ~ In dot e -> lower e = lit "rar" ->
         path_exists w file_path = true -> RAR_SUPPORT w = false ->
         search_in_file re w file_path pattern case_sensitive regex
         = set_is_archive true (new_results file_path)).
Proof.
  split.
  - intros Hex. unfold search_in_file, search_body.
    rewrite read_file_unfold, Hex. simpl. reflexivity.
  - intros base e -> Hdot Hrar Hex Hsup. unfold search_in_file, search_body.
    rewrite read_file_unfold, Hex, (@dispatch_ext_app base e Hdot), Hrar, Hsup.
    reflexivity.
Qed.

Lemma search_in_file_empty_decodes_witness :
  search_in_file (toy_engine 100) world_two_entries (lit "missing.zip")
                 (lit "foo") false true
  = new_results (lit "missing.zip").
Proof.
  apply search_in_file_empty_decodes. reflexivity.
Defined.

(** X14. When [re.compile] rejects the pattern with [re.error], the regex
    search of every file gives a result without matches, without archive
    entries and without an error field, so that the rejection cannot be
    told from a search that found nothing; a directory search then
    returns the empty list whenever it returns, that is, when neither the
    enumeration nor an [is_file()] test raises. *)
Theorem invalid_regex_looks_like_no_match (re : ReEngine) (w : World)
    (pattern : str) (case_sensitive : bool) (msg : str) :
  re_compile re pattern (if case_sensitive then NOFLAG else IGNORECASE)
  = Raise (re_error msg) ->
  (forall file_path,
      let r := search_in_file re w file_path pattern case_sensitive true in
      fr_match_count r = 0 /\ fr_matches r = [] /\ fr_archive_contents r = []
      /\ fr_error r = None)
  /\ (forall directory file_pattern recursive,
         search_in_directory re w directory pattern file_pattern recursive
                             case_sensitive true
         = match enumerate_files w directory file_pattern recursive with
           | Ok files =>
               match is_file_error w files with
               | None => Ok []
               | Some e => Raise e
               end
           | Raise e => Raise e
           end).
Proof.
  intros Hcompile.
  assert (Hquiet : forall text,
             search_in_text re text pattern case_sensitive true = Ok []).
  { intros text. unfold search_in_text. destruct text; [reflexivity|].
    now rewrite Hcompile. }
  assert (Hfile : forall file_path,
             fr_match_count
               (search_in_file re w file_path pattern case_sensitive true) = 0).
  { intros file_path. rewrite search_in_file_quiet by exact Hquiet.
    now destruct (read_file w file_path). }
  split.
  - intros file_path. cbv zeta. rewrite search_in_file_quiet by exact Hquiet.
    destruct (read_file w file_path); repeat split; reflexivity.
  - intros directory file_pattern recursive. unfold search_in_directory.
    destruct (enumerate_files w directory file_pattern recursive) as [files|e];
      [|reflexivity].
    cbn [bind]. unfold walk_files. rewrite walk_loop_result.
    destruct (is_file_error w files); [reflexivity|].
    cbn [bind all_results app]. f_equal.
    apply filter_none. intros r Hr. apply in_map_iff in Hr as [p [<- _]].
    unfold has_match. now rewrite Hfile.
Qed.

Lemma invalid_regex_looks_like_no_match_witness :
  fr_match_count (search_in_file (toy_engine 100) world_tree (lit "d/a.txt")
                                 (lit "(needle") false true) = 0
  /\ fr_error (search_in_file (toy_engine 100) world_tree (lit "d/a.txt")
                              (lit "(needle") false true) = None
  /\ search_in_directory (toy_engine 100) world_tree (lit "d") (lit "(needle")
                         (lit "*") true false true = Ok [].
Proof.
  destruct (@invalid_regex_looks_like_no_match (toy_engine 100) world_tree
              (lit "(needle") false
              (lit "missing ), unterminated subpattern at position 0") eq_refl)
    as [Hfile Hdir].
  destruct (Hfile (lit "d/a.txt")) as [H1 [_ [_ H2]]].
  split; [exact H1 | split; [exact H2|]].
  apply Hdir.
Defined.

(* ===================================================================== *)
(** ** Directory results: order and errors *)
(* ===================================================================== *)

Lemma search_in_file_file (re : ReEngine) (w : World) (file_path pattern : str)
    (case_sensitive regex : bool) :
  fr_file (search_in_file re w file_path pattern case_sensitive regex) = file_path.
Proof.
  unfold search_in_file, search_body.
  destruct (read_file w file_path) as [text|content].
  - now destruct (search_in_text re text pattern case_sensitive regex).
  - pose proof (archive_loop_file re pattern case_sensitive regex content
                  (set_is_archive true (new_results file_path))) as H.
    destruct (archive_loop re content pattern case_sensitive regex
                (set_is_archive true (new_results file_path))) as [r' [e|]];
      simpl in *; exact H.
Qed.

Lemma plain_result_with_match_has_no_error (re : ReEngine) (w : World)
    (file_path pattern : str) (case_sensitive regex : bool) :
  let r := search_in_file re w file_path pattern case_sensitive regex in
  fr_is_archive r = false -> 0 < fr_match_count r -> fr_error r = None.
Proof.
  unfold search_in_file, search_body.
  destruct (read_file w file_path) as [text|content].
  - destruct (search_in_text re text pattern case_sensitive regex); simpl.
    + reflexivity.
    + lia.
  - pose proof (@archive_loop_inv re pattern case_sensitive regex content _
                  (archive_inv_start file_path)) as Hinv.
    destruct (archive_loop re content pattern case_sensitive regex
                (set_is_archive true (new_results file_path))) as [r' [e|]];
      simpl in *; destruct Hinv as [_ [Ha _]]; congruence.
Qed.

Lemma files_of_matching_results {A : Type} (search : A -> FileResult)
    (ok : A -> bool) (files : list A) :
  filter has_match (map search (filter ok files))
  = map search (filter (fun p => ok p && has_match (search p)) files).
Proof.
  induction files as [|p files IH]; [reflexivity|]. simpl.
  destruct (ok p); simpl; [|exact IH].
  destruct (has_match (search p)); simpl; now rewrite IH.
Qed.

(** X15. When a directory search returns, its results are in the order of
    the enumeration, one for each regular file with a supported or empty
    extension whose search counted a match, under the path the
    enumeration gave; and no result for a plain file carries an error:
    an exception in the search of a plain file leaves its count at 0, so
    that file is dropped from the results together with its error. *)
Theorem directory_results_follow_enumeration (re : ReEngine) (w : World)
    (directory pattern file_pattern : str)
    (recursive case_sensitive regex : bool) (results : list FileResult) :
  search_in_directory re w directory pattern file_pattern recursive
                      case_sensitive regex = Ok results ->
  exists files,
    enumerate_files w directory file_pattern recursive = Ok files
    /\ map fr_file results
       = filter (fun p =>
                   searchable w p
                   && has_match (search_in_file re w p pattern case_sensitive regex))
                files
    /\ Forall (fun r => fr_is_archive r = false -> fr_error r = None) results.
Proof.
  unfold search_in_directory.
  destruct (enumerate_files w directory file_pattern recursive) as [files|e];
    [|discriminate].
  cbn [bind]. unfold walk_files. rewrite walk_loop_result.
  destruct (is_file_error w files); [discriminate|].
  cbn [bind all_results app]. intros [= <-].
  exists files. split; [reflexivity|].
  rewrite files_of_matching_results.
  split.
  - rewrite map_map.
    induction files as [|p files IH]; [reflexivity|]. simpl.
    destruct (searchable w p
              && has_match (search_in_file re w p pattern case_sensitive regex));
      simpl; [rewrite search_in_file_file|]; now rewrite IH.
  - apply Forall_forall. intros r Hr. apply in_map_iff in Hr as [p [<- Hp]].
    apply filter_In in Hp as [_ Hp]. apply andb_true_iff in Hp as [_ Hp].
    intros Hplain. apply plain_result_with_match_has_no_error; [exact Hplain|].
    now apply Nat.ltb_lt in Hp.
Qed.

Lemma directory_results_follow_enumeration_witness :
  exists results,
    search_in_directory (toy_engine 100) world_tree (lit "d") (lit "needle")
                        (lit "*") true false false = Ok results
    /\ map fr_file results = [lit "d/a.txt"; lit "d/c.txt"; lit "d/e.txt"].
Proof.
  eexists. split; [reflexivity|].
  destruct (@directory_results_follow_enumeration (toy_engine 100) world_tree
              (lit "d") (lit "needle") (lit "*") true false false _ eq_refl)
    as [files [Hfiles [Hmap _]]].
  rewrite Hmap. injection Hfiles as <-. reflexivity.
Defined.

(* ===================================================================== *)
(** ** The front end: the result table *)
(* ===================================================================== *)

Lemma fold_display_step (results : list FileResult) : forall total rows,
  fold_left display_step results (total, rows)
  = (total + list_sum (map fr_match_count results),
     rows ++ map result_row (filter has_match results)).
Proof.
  induction results as [|r results IH]; intros total rows.
  - simpl. now rewrite Nat.add_0_r, app_nil_r.
  - cbn [fold_left map filter]. unfold has_match at 1.
    unfold display_step at 2. cbv zeta. cbn [fst snd].
    change (list_sum (fr_match_count r :: map fr_match_count results))
      with (fr_match_count r + list_sum (map fr_match_count results)).
    destruct (0 <? fr_match_count r) eqn:E.
    + rewrite IH. cbn [map]. rewrite <- app_assoc. f_equal. lia.
    + rewrite IH. apply Nat.ltb_ge in E. f_equal. lia.
Qed.

(** X16. [display_results] appends to the tree one row for each result
    that has a match, in order, and sets the status line to the sum of
    the counts of all the results and the number of all the results, with
    or without a match. *)
Theorem display_results_rows_and_totals (v : View) (results : list FileResult) :
  tree (display_results v results)
  = tree v ++ map result_row (filter has_match results)
  /\ status_var (display_results v results)
     = s_found ++ str_of_nat (list_sum (map fr_match_count results))
       ++ s_matches_in ++ str_of_nat (length results) ++ s_files
  /\ current_results (display_results v results) = current_results v.
Proof.
  unfold display_results. cbv zeta. rewrite fold_display_step. simpl.
  repeat split; reflexivity.
Qed.

Lemma filter_all {A : Type} (f : A -> bool) (l : list A) :
  Forall (fun x => f x = true) l -> filter f l = l.
Proof.
  induction 1 as [|x l Hx Hl IH]; [reflexivity|]. simpl. now rewrite Hx, IH.
Qed.

Lemma search_in_directory_has_match (re : ReEngine) (w : World)
    (directory pattern file_pattern : str) (recursive case_sensitive regex : bool)
    (results : list FileResult) :
  search_in_directory re w directory pattern file_pattern recursive
                      case_sensitive regex = Ok results ->
  Forall (fun r => has_match r = true) results.
Proof.
  unfold search_in_directory.
  destruct (enumerate_files w directory file_pattern recursive) as [files|e];
    [|discriminate].
  cbn [bind]. unfold walk_files. rewrite walk_loop_result.
  destruct (is_file_error w files); [discriminate|].
  cbn [bind all_results app].
  intros [= <-]. apply Forall_forall. intros r Hr.
  now apply filter_In in Hr as [_ Hr].
Qed.

(** X17. When [display_results] shows, in an empty table, the result list
    of one search (the single result of [search_in_file], as
    [perform_search] builds it for a file, or the list
    [search_in_directory] returned), row [k] of the table is the row of
    result [k] of the list: a result without a match gets no row, but
    only the single result of a file search can be without a match. *)
Theorem table_rows_follow_results (re : ReEngine) (w : World) (v : View)
    (path pattern file_pattern : str) (recursive case_sensitive regex : bool)
    (results : list FileResult) :
  tree v = [] ->
  results = [search_in_file re w path pattern case_sensitive regex]
  \/ search_in_directory re w path pattern file_pattern recursive
                         case_sensitive regex = Ok results ->
  forall k row,
    nth_error (tree (display_results v results)) k = Some row ->
    exists r, nth_error results k = Some r /\ row = result_row r.
Proof.
  intros Htree Hres k row.
  unfold display_results. cbv zeta. rewrite fold_display_step.
  simpl. rewrite Htree. simpl. intros Hrow.
  destruct Hres as [-> | Hdir].
  - simpl in Hrow.
    destruct (has_match (search_in_file re w path pattern case_sensitive regex));
      [|destruct k; discriminate].
    destruct k as [|[|k]]; try discriminate.
    injection Hrow as <-. now eexists.
  - apply search_in_directory_has_match in Hdir.
    rewrite (filter_all _ Hdir) in Hrow.
    rewrite nth_error_map in Hrow.
    destruct (nth_error results k) as [r|]; [|discriminate].
    injection Hrow as <-. now exists r.
Qed.

Lemma table_rows_follow_results_witness :
  exists r row,
    nth_error
      (tree (display_results new_view
               [search_in_file (toy_engine 100) world_tree (lit "d/a.txt")
                               (lit "needle") false false])) 0 = Some row
    /\ nth_error [search_in_file (toy_engine 100) world_tree (lit "d/a.txt")
                                 (lit "needle") false false] 0 = Some r
    /\ row = result_row r.
Proof.
  destruct (@table_rows_follow_results (toy_engine 100) world_tree new_view
              (lit "d/a.txt") (lit "needle") (lit "*") true false false
              _ eq_refl (or_introl eq_refl) 0 _ eq_refl)
    as [r [Hr Hrow]].
  exists r. eexists. split; [reflexivity|]. split; [exact Hr | exact Hrow].
Defined.

(* ===================================================================== *)
(** ** The front end: what is searched for, and the export *)
(* ===================================================================== *)

Lemma lstrip_head (s : str) (c : char) :
  hd_error (lstrip s) = Some c -> isspace c = false.
Proof.
  induction s as [|d s IH]; simpl; [discriminate|].
  destruct (isspace d) eqn:E; [exact IH|].
  simpl. now intros [= <-].
Qed.

Lemma lstrip_suffix (s : str) : exists pre, s = pre ++ lstrip s.
Proof.
  induction s as [|d s [pre IH]]; simpl; [now exists []|].
  destruct (isspace d).
  - exists (d :: pre). simpl. now rewrite <- IH.
  - now exists [].
Qed.

Lemma strip_ends (s : str) (c : char) :
  (hd_error (strip s) = Some c -> isspace c = false)
  /\ (hd_error (rev (strip s)) = Some c -> isspace c = false).
Proof.
  unfold strip. split; [apply lstrip_head|].
  destruct (lstrip_suffix (rstrip s)) as [pre Hpre].
  intros Hlast. apply (@lstrip_head (rev s)).
  assert (Hrev : rev (rstrip s) = lstrip (rev s))
    by (unfold rstrip; apply rev_involutive).
  rewrite <- Hrev, Hpre, rev_app_distr.
  destruct (rev (lstrip (rstrip s))) as [|x xs]; [discriminate|].
  exact Hlast.
Qed.

(** X18. [start_search] either shows one dialog and changes nothing else
    (the pattern or the path is empty after stripping, or the path does
    not exist), or hands the worker the stripped pattern and path: the
    pattern searched for is never empty and never begins or ends with
    white space, and the path exists. *)
Theorem start_search_validates (re : ReEngine) (w : World) (i : Inputs) (v : View) :
  (exists d, start_search re w i v = show d v)
  \/ (let pattern := strip (search_entry i) in
      let path := strip (path_entry i) in
      start_search re w i v = perform_search re w i (cleared_view v) pattern path
      /\ pattern <> [] /\ path <> [] /\ path_exists w path = true
      /\ forall c,
          (hd_error pattern = Some c -> isspace c = false)
          /\ (hd_error (rev pattern) = Some c -> isspace c = false)).
Proof.
  unfold start_search. cbv zeta.
  destruct (strip (search_entry i)) as [|c0 pattern] eqn:Ep;
    [left; eexists; reflexivity|].
  destruct (strip (path_entry i)) as [|c1 path] eqn:Epath;
    [left; eexists; reflexivity|].
  cbn [truthy negb].
  destruct (path_exists w (c1 :: path)) eqn:Eex;
    [|left; eexists; reflexivity].
  right. cbn [negb]. split; [reflexivity|].
  split; [discriminate|]. split; [discriminate|]. split; [reflexivity|].
  intros c. rewrite <- Ep. apply strip_ends.
Qed.

(** X19. [export_results] never writes a result.  With results to export,
    a file chosen and the file opened, it writes the title line, then
    fails on the date line, because the name [time] is bound neither in
    the method nor at module level: the file is left with the title line
    alone and an error dialog is shown, whatever the results are. *)
Theorem export_results_writes_title_only (rar_support : bool) (clock chosen : str)
    (i : Inputs) (v : View) :
  current_results v <> [] -> chosen <> [] ->
  export_results rar_support clock chosen None i v
  = (Some (chosen, s_x_title),
     show (showerror s_error
             (s_export_failed ++ lit "name 'time' is not defined")) v).
Proof.
  intros Hres Hchosen. unfold export_results.
  destruct (current_results v) as [|r rs] eqn:Er; [congruence|].
  destruct chosen as [|c chosen]; [congruence|].
  cbn [truthy negb]. unfold export_writes.
  replace (eval_time_strftime rar_support clock)
    with (@Raise str (other_exception (lit "name 'time' is not defined")))
    by now destruct rar_support.
  reflexivity.
Qed.

Lemma export_results_writes_title_only_witness :
  fst (export_results false (lit "2024-01-01 00:00:00") (lit "out.txt") None
         inputs_tree
         (start_search (toy_engine 100) world_tree inputs_tree new_view))
  = Some (lit "out.txt", s_x_title).
Proof.
  rewrite (@export_results_writes_title_only false (lit "2024-01-01 00:00:00")
             (lit "out.txt") inputs_tree
             (start_search (toy_engine 100) world_tree inputs_tree new_view)).
  - reflexivity.
  - discriminate.
  - discriminate.
Defined.
